(** * Simple Braille Autocorrect: a shallow embedding of [braille01.py]

    The development follows the Python source method by method.

    - Python [str] values are modelled by [string]; the character-level
      functions ([upper], [lower], [strip], [split], [isalpha]) are the
      ASCII fragment of Python's, which is the alphabet the program is
      written for (code points 0 to 127).
    - [self.dictionary] (a Python [set]) is a [gset string].  The order in
      which Python iterates over a set is not fixed by the language, so it
      is a parameter [set_order] of the development, constrained only to
      enumerate the set.
    - [self.word_count] (a Python [dict], whose iteration order is the
      insertion order and is observed by [get_stats]) is an
      insertion-ordered association list.
    - [self.learned_fixes] (a Python [dict] that is only looked up, written
      and counted) is a [gmap string string].
    - Methods are computations in a state-and-exception monad [M] over the
      object's fields: an out-of-range index, a missing key and a division
      by zero raise, as in Python.
    - Lengths, indices, distances and counts are natural numbers; the limit
      [max_suggestions], which the caller chooses, is an integer.
    - Scores are Python floats in the source; here they are exact
      rationals. *)

From Stdlib Require Import Ascii QArith.
From stdpp Require Import gmap strings list fin_maps sorting.

(** ** Characters and strings (ASCII fragment of Python's [str]) *)

Module Str.

Definition code (c : ascii) : nat := nat_of_ascii c.

Definition is_upper_char (c : ascii) : bool :=
  (65 <=? code c) && (code c <=? 90).

Definition is_lower_char (c : ascii) : bool :=
  (97 <=? code c) && (code c <=? 122).

(** [c.isalpha()], for an ASCII character [c]: beyond code point 127
    Python also counts accented and non-Latin letters. *)
Definition isalpha_char (c : ascii) : bool :=
  is_upper_char c || is_lower_char c.

(** [c.isspace()]: TAB, LF, VT, FF, CR, FS, GS, RS, US and SPACE. *)
Definition isspace_char (c : ascii) : bool :=
  ((9 <=? code c) && (code c <=? 13))
  || ((28 <=? code c) && (code c <=? 32)).

Definition upper_char (c : ascii) : ascii :=
  if is_lower_char c then ascii_of_nat (code c - 32) else c.

Definition lower_char (c : ascii) : ascii :=
  if is_upper_char c then ascii_of_nat (code c + 32) else c.

Definition chars (s : string) : list ascii := String.list_ascii_of_string s.
Definition of_chars (l : list ascii) : string := String.string_of_list_ascii l.

(** [s.upper()] and [s.lower()], for an ASCII string [s]: beyond code
    point 127 Python's case maps change other characters too, and may
    change the length of the string.  Statements that depend on the value
    of these functions assume [is_ascii], defined below. *)
Definition upper (s : string) : string := of_chars (upper_char <$> chars s).
Definition lower (s : string) : string := of_chars (lower_char <$> chars s).

Fixpoint lstrip_chars (l : list ascii) : list ascii :=
  match l with
  | c :: l' => if isspace_char c then lstrip_chars l' else l
  | [] => []
  end.

(** [s.strip()] *)
Definition strip (s : string) : string :=
  of_chars (reverse (lstrip_chars (reverse (lstrip_chars (chars s))))).

(** [s.split()]: maximal runs of non-whitespace characters, in order.
    [cur] is the run being read, most recent character first. *)
Fixpoint split_chars (cur : list ascii) (l : list ascii) : list string :=
  match l with
  | [] => match cur with [] => [] | _ => [of_chars (reverse cur)] end
  | c :: l' =>
      if isspace_char c then
        match cur with
        | [] => split_chars [] l'
        | _ => of_chars (reverse cur) :: split_chars [] l'
        end
      else split_chars (c :: cur) l'
  end.

Definition split (s : string) : list string := split_chars [] (chars s).

(** [''.join(parts)] *)
Definition join (parts : list string) : string :=
  foldr String.append EmptyString parts.

(** The one-character string [c]. *)
Definition of_char (c : ascii) : string := String c EmptyString.

(** [len(s)] *)
Definition len (s : string) : nat := String.length s.

End Str.

(** ** Exceptions and the method monad *)

Inductive exn : Type := IndexError | KeyError | ZeroDivisionError.

Inductive result (A : Type) : Type :=
| Ok (a : A)
| Raise (e : exn).
Arguments Ok {A} a.
Arguments Raise {A} e.

(** ** Insertion-ordered dictionaries (Python [dict]) *)

Module ODict.

Definition t (V : Type) : Type := list (string * V).

Fixpoint get {V} (k : string) (d : t V) : option V :=
  match d with
  | [] => None
  | (k', v) :: d' => if decide (k' = k) then Some v else get k d'
  end.

(** [d[k] = v]: an existing key keeps its place, a new key goes last. *)
Fixpoint set {V} (k : string) (v : V) (d : t V) : t V :=
  match d with
  | [] => [(k, v)]
  | (k', v') :: d' =>
      if decide (k' = k) then (k, v) :: d' else (k', v') :: set k v d'
  end.

(** [d.items()] *)
Definition items {V} (d : t V) : list (string * V) := d.

End ODict.

(** ** The object state *)

Record Lexicon : Type := mkLexicon {
  dictionary : gset string;
  word_count : ODict.t nat;
  learned_fixes : gmap string string
}.

Definition M (A : Type) : Type := Lexicon → result A * Lexicon.

Definition ret {A} (a : A) : M A := λ self, (Ok a, self).

Definition bind {A B} (m : M A) (k : A → M B) : M B :=
  λ self,
    match m self with
    | (Ok a, self') => k a self'
    | (Raise e, self') => (Raise e, self')
    end.

Definition raise {A} (e : exn) : M A := λ self, (Raise e, self).

(** Read a field of [self]. *)
Definition gets {A} (f : Lexicon → A) : M A := λ self, (Ok (f self), self).

(** Update [self] in place. *)
Definition modify (f : Lexicon → Lexicon) : M unit := λ self, (Ok tt, f self).

Notation "'let!' x ':=' c 'in' k" := (bind c (λ x, k))
  (at level 10, x name, c at level 100, k at level 200).
Notation "'let!' ' pat ':=' c 'in' k" :=
  (bind c (λ x, match x with pat => k end))
  (at level 10, pat pattern, c at level 100, k at level 200).
Notation "c ';;' k" := (bind c (λ _, k))
  (at level 100, k at level 200, right associativity).

(** [for x in xs: acc = body(x, acc)]: the loop's local variables are
    threaded through as [acc]. *)
Fixpoint for_each {A L} (xs : list A) (body : A → L → M L) (acc : L) : M L :=
  match xs with
  | [] => ret acc
  | x :: xs' => let! acc' := body x acc in for_each xs' body acc'
  end.

(** [range(a, b)] *)
Definition range (a b : nat) : list nat := seq a (b - a).

(** ** Module-level tables *)

(** [BRAILLE_KEYS]: QWERTY key to Braille dot. *)
Definition BRAILLE_KEYS : gmap ascii nat :=
  list_to_map
    [ ("D"%char, 1); ("W"%char, 2); ("Q"%char, 3);
      ("K"%char, 4); ("O"%char, 5); ("P"%char, 6) ].

Definition DOT_TO_LETTER_items : list (list nat * string) :=
  [ ([1], "a"); ([1; 2], "b"); ([1; 4], "c"); ([1; 4; 5], "d"); ([1; 5], "e");
    ([1; 2; 4], "f"); ([1; 2; 4; 5], "g"); ([1; 2; 5], "h"); ([2; 4], "i");
    ([2; 4; 5], "j");
    ([1; 3], "k"); ([1; 2; 3], "l"); ([1; 3; 4], "m"); ([1; 3; 4; 5], "n");
    ([1; 3; 5], "o");
    ([1; 2; 3; 4], "p"); ([1; 2; 3; 4; 5], "q"); ([1; 2; 3; 5], "r");
    ([2; 3; 4], "s"); ([2; 3; 4; 5], "t");
    ([1; 3; 6], "u"); ([1; 2; 3; 6], "v"); ([2; 4; 5; 6], "w");
    ([1; 3; 4; 6], "x"); ([1; 3; 4; 5; 6], "y");
    ([1; 3; 5; 6], "z") ].

(** [DOT_TO_LETTER]: sorted tuple of dots to letter. *)
Definition DOT_TO_LETTER : gmap (list nat) string :=
  list_to_map DOT_TO_LETTER_items.

(** ** The class [SimpleBrailleAutocorrect] *)

(** [__init__] before [load_basic_words]: three empty containers. *)
Definition empty_lexicon : Lexicon :=
  {| dictionary := ∅; word_count := []; learned_fixes := ∅ |}.

Definition basic_words : list string :=
  [ "the"; "and"; "for"; "are"; "but"; "not"; "you"; "all"; "can"; "had";
    "her"; "was"; "one"; "our"; "out"; "day"; "get"; "has"; "him"; "his";
    "how"; "man"; "new"; "now"; "old"; "see"; "two"; "way"; "who"; "boy";
    "did"; "its"; "let"; "put"; "say"; "she"; "too"; "use"; "good"; "have";
    "just"; "like"; "over"; "also"; "back"; "call"; "came"; "each"; "find";
    "give"; "hand"; "here"; "keep"; "kind"; "know"; "last"; "left"; "life";
    "live"; "look"; "made"; "make"; "most"; "move"; "must"; "name"; "need";
    "only"; "open"; "part"; "play"; "right"; "said"; "same"; "seem"; "show";
    "side"; "take"; "tell"; "turn"; "want"; "well"; "went"; "were"; "what";
    "when"; "where"; "which"; "will"; "with"; "word"; "work"; "world"; "year";
    "hello"; "computer"; "braille"; "system"; "keyboard"; "typing"; "input" ].

(** [add_word(self, word)] *)
Definition add_word (word : string) : M unit :=
  let word := Str.strip (Str.lower word) in
  if decide (word = EmptyString) then ret tt
  else
    modify (λ self,
      {| dictionary := {[ word ]} ∪ dictionary self;
         word_count := word_count self;
         learned_fixes := learned_fixes self |}) ;;
    let! count := gets (λ self, default 0 (ODict.get word (word_count self))) in
    modify (λ self,
      {| dictionary := dictionary self;
         word_count := ODict.set word (count + 1) (word_count self);
         learned_fixes := learned_fixes self |}).

(** [load_basic_words(self)] *)
Definition load_basic_words : M unit :=
  for_each basic_words (λ word _, add_word word) tt.

(** The object after [__init__]. *)
Definition initial_lexicon : Lexicon := snd (load_basic_words empty_lexicon).

(** [dots_to_letter(self, dots)]: [sorted] is any sort into ascending
    order; the result is the same for all of them, the dots being
    distinct. *)
Definition dots_to_letter (dots : gset nat) : M string :=
  let dot_pattern := merge_sort (≤) (elements dots) in
  ret (default "?" (DOT_TO_LETTER !! dot_pattern)).

(** The body of the loop of [convert_braille_input]; the loop's variables
    are [result] and [current_dots]. *)
Definition convert_braille_step (char : ascii)
    (acc : list string * gset nat) : M (list string * gset nat) :=
  let '(result, current_dots) := acc in
  if decide (char = " "%char) then
    let! '(result, current_dots) :=
      (if decide (current_dots = ∅) then ret (result, current_dots)
       else
         let! letter := dots_to_letter current_dots in
         ret (result ++ [letter], ∅)) in
    ret (result ++ [" "], current_dots)
  else
    match BRAILLE_KEYS !! char with
    | Some dot => ret (result, {[ dot ]} ∪ current_dots)
    | None =>
        let! '(result, current_dots) :=
          (if decide (current_dots = ∅) then ret (result, current_dots)
           else
             let! letter := dots_to_letter current_dots in
             ret (result ++ [letter], ∅)) in
        ret (result ++ [Str.lower (Str.of_char char)], current_dots)
    end.

(** [convert_braille_input(self, input_text)] *)
Definition convert_braille_input (input_text : string) : M string :=
  let! '(result, current_dots) :=
    for_each (Str.chars (Str.upper input_text)) convert_braille_step
             ([], ∅) in
  let! result :=
    (if decide (current_dots = ∅) then ret result
     else
       let! letter := dots_to_letter current_dots in
       ret (result ++ [letter])) in
  ret (Str.join result).

(** [matrix[i][j]] *)
Definition matrix_get (matrix : list (list nat)) (i j : nat) : M nat :=
  match matrix !! i with
  | Some row =>
      match row !! j with
      | Some v => ret v
      | None => raise IndexError
      end
  | None => raise IndexError
  end.

(** [matrix[i][j] = v] *)
Definition matrix_set (matrix : list (list nat)) (i j v : nat)
    : M (list (list nat)) :=
  match matrix !! i with
  | Some row =>
      if decide (j < length row) then ret (<[ i := <[ j := v ]> row ]> matrix)
      else raise IndexError
  | None => raise IndexError
  end.

(** [word[i]] for [0 <= i] *)
Definition str_index (word : string) (i : nat) : M ascii :=
  match String.get i word with
  | Some c => ret c
  | None => raise IndexError
  end.

(** The body of the inner loop of [calculate_similarity]: cell [(i, j)]. *)
Definition similarity_cell (word1 word2 : string) (i j : nat)
    (matrix : list (list nat)) : M (list (list nat)) :=
  let! c1 := str_index word1 (i - 1) in
  let! c2 := str_index word2 (j - 1) in
  let cost := if decide (c1 = c2) then 0 else 1 in
  let! deletion := matrix_get matrix (i - 1) j in
  let! insertion := matrix_get matrix i (j - 1) in
  let! substitution := matrix_get matrix (i - 1) (j - 1) in
  matrix_set matrix i j
    (Nat.min (Nat.min (deletion + 1) (insertion + 1)) (substitution + cost)).

(** The body of the outer loop of [calculate_similarity]: row [i]. *)
Definition similarity_row (word1 word2 : string) (len2 i : nat)
    (matrix : list (list nat)) : M (list (list nat)) :=
  for_each (range 1 (len2 + 1)) (similarity_cell word1 word2 i) matrix.

(** [calculate_similarity(self, word1, word2)].  The loop indices start at
    1, so [i - 1] and [j - 1] are never negative. *)
Definition calculate_similarity (word1 word2 : string) : M nat :=
  if decide (word1 = word2) then ret 0
  else
    let len1 := Str.len word1 in
    let len2 := Str.len word2 in
    let matrix := replicate (len1 + 1) (replicate (len2 + 1) 0) in
    let! matrix :=
      for_each (range 0 (len1 + 1))
        (λ i matrix, matrix_set matrix i 0 i) matrix in
    let! matrix :=
      for_each (range 0 (len2 + 1))
        (λ j matrix, matrix_set matrix 0 j j) matrix in
    let! matrix :=
      for_each (range 1 (len1 + 1)) (similarity_row word1 word2 len2) matrix in
    matrix_get matrix len1 len2.

(** [a / b] on numbers, as a float in the source. *)
Definition true_div (a b : Q) : M Q :=
  if Qeq_bool b 0 then raise ZeroDivisionError else ret (a / b)%Q.

Definition Q_of_nat (n : nat) : Q := inject_Z (Z.of_nat n).

(** [l.sort(key=..., reverse=True)] and [sorted(l, key=..., reverse=True)]:
    a stable sort into descending order of the key.  [key_le y x] says
    that the key of [y] is at most the key of [x]. *)
Section stable_sort.
Context {A : Type} (key_le : A → A → bool).

Fixpoint insert_desc (x : A) (l : list A) : list A :=
  match l with
  | [] => [x]
  | y :: l' => if key_le y x then x :: l else y :: insert_desc x l'
  end.

Fixpoint sort_desc (l : list A) : list A :=
  match l with
  | [] => []
  | x :: l' => insert_desc x (sort_desc l')
  end.
End stable_sort.

(** [l[:n]] for a Python integer [n] *)
Definition slice_to {A} (n : Z) (l : list A) : list A :=
  if (n <? 0)%Z then take (length l - Z.to_nat (- n)) l
  else take (Z.to_nat n) l.

(** One entry of the list returned by [autocorrect]. *)
Record correction : Type := mkCorrection {
  original : string;
  suggestions : list string;
  best_match : string
}.

(** The dictionary returned by [get_stats]. *)
Record stats : Type := mkStats {
  total_words : nat;
  learned_corrections : nat;
  most_common_words : list (string * nat)
}.

(** [self.learned_fixes[word]] *)
Definition learned_fixes_getitem (word : string) : M string :=
  λ self,
    match learned_fixes self !! word with
    | Some fixed => (Ok fixed, self)
    | None => (Raise KeyError, self)
    end.

(** [key=lambda x: x[1]] on the triples [(word, score, distance)], as a
    comparison of two triples. *)
Definition score_le (y x : string * Q * nat) : bool :=
  Qle_bool (snd (fst y)) (snd (fst x)).

Section iteration_order.

(** The order in which [for dict_word in self.dictionary] visits the set. *)
Variable set_order : gset string → list string.

(** The body of the loop of [find_suggestions]. *)
Definition find_suggestions_step (word : string) (max_distance : nat)
    (dict_word : string) (suggestions : list (string * Q * nat))
    : M (list (string * Q * nat)) :=
  let! distance := calculate_similarity word dict_word in
  if decide (distance ≤ max_distance) then
    let! ratio :=
      true_div (Q_of_nat distance)
               (Q_of_nat (Str.len word `max` Str.len dict_word)) in
    let similarity_score := (1.0 - ratio)%Q in
    let! frequency_score :=
      gets (λ self, default 1 (ODict.get dict_word (word_count self))) in
    let total_score :=
      (similarity_score * 0.7 + (Q_of_nat frequency_score / 100) * 0.3)%Q in
    ret (suggestions ++ [(dict_word, total_score, distance)])
  else ret suggestions.

(** [find_suggestions(self, word, max_suggestions)] *)
Definition find_suggestions (word : string) (max_suggestions : Z)
    : M (list string) :=
  let word := Str.lower word in
  let! known := gets (λ self, bool_decide (word ∈ dictionary self)) in
  if known : bool then ret [word]
  else
    let! learned :=
      gets (λ self, bool_decide (is_Some (learned_fixes self !! word))) in
    if learned : bool then
      let! fixed := learned_fixes_getitem word in
      ret [fixed]
    else
      let max_distance := 3 `min` (Str.len word / 2 + 1) in
      let! dict_words := gets (λ self, set_order (dictionary self)) in
      let! suggestions :=
        for_each dict_words (find_suggestions_step word max_distance) [] in
      let suggestions := sort_desc score_le suggestions in
      ret ((λ s, fst (fst s)) <$> slice_to max_suggestions suggestions).

(** The body of the loop of [autocorrect]. *)
Definition autocorrect_step (max_suggestions : Z) (word : string)
    (results : list correction) : M (list correction) :=
  let clean_word :=
    Str.of_chars (filter (λ c, Str.isalpha_char c = true) (Str.chars word)) in
  if decide (clean_word = EmptyString) then
    ret (results ++
           [{| original := word; suggestions := [word]; best_match := word |}])
  else
    let! suggestions := find_suggestions clean_word max_suggestions in
    match suggestions with
    | best :: _ =>
        ret (results ++
               [{| original := word; suggestions := suggestions;
                   best_match := best |}])
    | [] =>
        ret (results ++
               [{| original := word; suggestions := [];
                   best_match := word |}])
    end.

(** [autocorrect(self, text, max_suggestions)] *)
Definition autocorrect (text : string) (max_suggestions : Z)
    : M (list correction) :=
  let! text :=
    (if existsb (λ c, bool_decide (c ∈ Str.chars "DWQKOP"))
                (Str.chars (Str.upper text))
     then convert_braille_input text
     else ret text) in
  let words := Str.split text in
  for_each words (autocorrect_step max_suggestions) [].

End iteration_order.

(** [learn_correction(self, wrong_word, correct_word)] *)
Definition learn_correction (wrong_word correct_word : string) : M unit :=
  let wrong_word := Str.lower wrong_word in
  let correct_word := Str.lower correct_word in
  modify (λ self,
    {| dictionary := dictionary self;
       word_count := word_count self;
       learned_fixes := <[ wrong_word := correct_word ]> (learned_fixes self) |}) ;;
  add_word correct_word.

(** [get_stats(self)] *)
Definition get_stats : M stats :=
  let! total := gets (λ self, size (dictionary self)) in
  let! learned := gets (λ self, size (learned_fixes self)) in
  let! items := gets (λ self, ODict.items (word_count self)) in
  ret {| total_words := total;
         learned_corrections := learned;
         most_common_words :=
           take 5 (sort_desc (λ y x, snd y <=? snd x) items) |}.

(** ** Edit distance: the reference definitions *)

Section edit_distance.
Context {A : Type} `{EqDecision A}.

(** The reference recursive definition: the distance to or from the empty
    word is the length of the other word; otherwise the least of a
    deletion, an insertion and a substitution, the substitution costing
    nothing when the two characters are equal. *)
Fixpoint lev (a : list A) : list A → nat :=
  match a with
  | [] => λ b, length b
  | x :: a' =>
      fix lev_a (b : list A) : nat :=
        match b with
        | [] => S (length a')
        | y :: b' =>
            Nat.min (Nat.min (lev a' b + 1) (lev_a b' + 1))
                    (lev a' b' + if decide (x = y) then 0 else 1)
        end
  end.

(** [edit_script a b n]: [a] is turned into [b] by [n] single-character
    insertions, deletions and substitutions, applied from left to right;
    characters that are kept cost nothing. *)
Inductive edit_script : list A → list A → nat → Prop :=
| es_done : edit_script [] [] 0
| es_keep x a b n : edit_script a b n → edit_script (x :: a) (x :: b) n
| es_substitute x y a b n :
    edit_script a b n → edit_script (x :: a) (y :: b) (S n)
| es_delete x a b n : edit_script a b n → edit_script (x :: a) b (S n)
| es_insert y a b n : edit_script a b n → edit_script a (y :: b) (S n).

End edit_distance.

(** The Levenshtein edit distance between two strings. *)
Definition levenshtein (w1 w2 : string) : nat :=
  lev (Str.chars w1) (Str.chars w2).

(** ** Loop invariants of [calculate_similarity] *)

(** The cell [matrix[r][c]], when it exists. *)
Definition cell (matrix : list (list nat)) (r c : nat) : option nat :=
  matrix !! r ≫= (.!! c).

(** A matrix of [rows] rows of [cols] cells. *)
Definition shaped (rows cols : nat) (matrix : list (list nat)) : Prop :=
  length matrix = rows ∧ Forall (λ row, length row = cols) matrix.

(** The matrix after [matrix[i][j] = v]. *)
Definition matrix_upd (matrix : list (list nat)) (i j v : nat)
    : list (list nat) :=
  match matrix !! i with
  | Some row => <[ i := <[ j := v ]> row ]> matrix
  | None => matrix
  end.

(** Before the main loop reaches cell [(i, j)]: the two edges, the rows
    above [i] and the cells of row [i] to the left of [j] hold the distance
    between the corresponding prefixes. *)
Definition dp_inv (a b : list ascii) (i j : nat) (matrix : list (list nat))
    : Prop :=
  shaped (length a + 1) (length b + 1) matrix ∧
  ∀ r c, r ≤ length a → c ≤ length b →
    r = 0 ∨ c = 0 ∨ r < i ∨ (r = i ∧ c < j) →
    cell matrix r c = Some (lev (take r a) (take c b)).

(** ** Reading the loop of [find_suggestions] *)

(** The score given to [dict_word] at distance [distance] from [word]. *)
Definition total_score (self : Lexicon) (word dict_word : string)
    (distance : nat) : Q :=
  ((1.0 - Q_of_nat distance
          / Q_of_nat (Str.len word `max` Str.len dict_word)) * 0.7
   + (Q_of_nat (default 1%nat (ODict.get dict_word (word_count self))) / 100)
     * 0.3)%Q.

(** What one iteration of the loop appends to [suggestions], if anything. *)
Definition candidate (self : Lexicon) (word : string) (max_distance : nat)
    (dict_word : string) : option (string * Q * nat) :=
  let distance := levenshtein word dict_word in
  if decide (distance ≤ max_distance)
  then Some (dict_word, total_score self word dict_word distance, distance)
  else None.

(** The list [find_suggestions] returns when it reaches the fuzzy search
    and the set is visited in the order [dict_words]. *)
Definition fuzzy_suggestions (self : Lexicon) (word : string)
    (max_suggestions : Z) (dict_words : list string) : list string :=
  let max_distance := 3 `min` (Str.len word / 2 + 1) in
  (λ s, fst (fst s))
    <$> slice_to max_suggestions
          (sort_desc score_le
             (omap (candidate self word max_distance) dict_words)).

(** ** Accessors of the specification *)

(** [contains(word)]: [word in self.dictionary] *)
Definition contains (self : Lexicon) (word : string) : Prop :=
  word ∈ dictionary self.

(** [frequencyOf(word)]: [self.word_count.get(word, 0)] *)
Definition frequency_of (self : Lexicon) (word : string) : nat :=
  default 0 (ODict.get word (word_count self)).

(** A method leaves the object as it found it, whatever it returns or
    raises. *)
Definition read_only {A} (m : M A) : Prop := ∀ self, snd (m self) = self.

(** The states a caller can reach: the object after [__init__], then any
    calls of [add_word] and [learn_correction]. *)
Inductive reachable : Lexicon → Prop :=
| reach_init : reachable initial_lexicon
| reach_add_word self word :
    reachable self → reachable (snd (add_word word self))
| reach_learn_correction self wrong_word correct_word :
    reachable self →
    reachable (snd (learn_correction wrong_word correct_word self)).

(** ** Single edits *)

Section single_edits.
Context {A : Type}.

(** One single-character edit somewhere in the word: an insertion, a
    deletion or a substitution, after any number of untouched
    characters. *)
Inductive edit1 : list A → list A → Prop :=
| e1_insert y a : edit1 a (y :: a)
| e1_delete x a : edit1 (x :: a) a
| e1_substitute x y a : edit1 (x :: a) (y :: a)
| e1_skip x a b : edit1 a b → edit1 (x :: a) (x :: b).

(** [edits n a b]: [n] single-character edits, one after the other and in
    any positions, turn [a] into [b]. *)
Inductive edits : nat → list A → list A → Prop :=
| edits_0 a : edits 0 a a
| edits_S n a c b : edit1 a c → edits n c b → edits (S n) a b.

End single_edits.

(** Whether a scored suggestion is for the word [w]. *)
Definition is_word (w : string) (c : string * Q * nat) : bool :=
  bool_decide (fst (fst c) = w).

(** ** Reading the loop of [convert_braille_input] *)

(** The letter [dots_to_letter] returns for [dots]. *)
Definition chord_letter (dots : gset nat) : string :=
  default "?" (DOT_TO_LETTER !! merge_sort (≤) (elements dots)).

(** What flushing the current chord appends to [result]. *)
Definition flush_chord (dots : gset nat) : list string :=
  if decide (dots = ∅) then [] else [chord_letter dots].

(** What one character appends to [result], and the chord it leaves. *)
Definition decode_char (char : ascii) (dots : gset nat)
    : list string * gset nat :=
  if decide (char = " "%char) then (flush_chord dots ++ [" "], ∅)
  else
    match BRAILLE_KEYS !! char with
    | Some dot => ([], {[ dot ]} ∪ dots)
    | None => (flush_chord dots ++ [Str.lower (Str.of_char char)], ∅)
    end.

(** What a run of characters appends to [result], and the chord it leaves. *)
Fixpoint decode_chars (chars : list ascii) (dots : gset nat)
    : list string * gset nat :=
  match chars with
  | [] => ([], dots)
  | c :: chars' =>
      let '(out, dots1) := decode_char c dots in
      let '(rest, dots2) := decode_chars chars' dots1 in
      (out ++ rest, dots2)
  end.

(** The text [convert_braille_input] returns for the characters [chars],
    once uppercased. *)
Definition decoded (chars : list ascii) : string :=
  let '(result, dots) := decode_chars chars ∅ in
  Str.join (result ++ flush_chord dots).

(** ** Typing a letter *)

(** The key of a dot: [BRAILLE_KEYS] read from right to left. *)
Definition key_of_dot (dot : nat) : ascii :=
  match dot with
  | 1 => "D" | 2 => "W" | 3 => "Q" | 4 => "K" | 5 => "O" | _ => "P"
  end%char.

(** The keys of the first pattern of [DOT_TO_LETTER] that gives [letter]. *)
Definition chord_for (letter : string) : option string :=
  (λ e, Str.of_chars (key_of_dot <$> (snd e).1))
    <$> list_find (λ e, e.2 = letter) DOT_TO_LETTER_items.

(** ** Normal forms of words *)

(** A word as [add_word] stores it: not empty, lowercased and trimmed. *)
Definition normalized (w : string) : Prop :=
  w ≠ EmptyString ∧ Str.strip (Str.lower w) = w.

(** ** Reading [autocorrect] *)

(** The test [any(c in 'DWQKOP' for c in text.upper())]. *)
Definition has_chord_key (text : string) : bool :=
  existsb (λ c, bool_decide (c ∈ Str.chars "DWQKOP"))
          (Str.chars (Str.upper text)).

(** [''.join(c for c in word if c.isalpha())] *)
Definition letters_of (word : string) : string :=
  Str.of_chars (filter (λ c, Str.isalpha_char c = true) (Str.chars word)).

(** What [autocorrect] guarantees of the result for one token. *)
Definition result_ok (set_order : gset string → list string) (n : Z)
    (self : Lexicon) (r : correction) : Prop :=
  best_match r = default (original r) (head (suggestions r))
  ∧ if decide (letters_of (original r) = EmptyString)
    then suggestions r = [original r]
    else find_suggestions set_order (letters_of (original r)) n self
         = (Ok (suggestions r), self).

(** ** ASCII text *)

(** Every character of [s] is an ASCII character (code point 0 to 127).
    On such text [Str.upper], [Str.lower], [Str.isalpha_char] and
    [Str.isspace_char] are Python's [upper], [lower], [isalpha] and
    [isspace]; statements that depend on what these do to a character
    carry this hypothesis. *)
Definition is_ascii (s : string) : Prop :=
  Forall (λ c, Str.code c < 128) (Str.chars s).

(** * Properties *)

(** ** Loops *)

Lemma for_each_inv {A L} (I : nat → L → Prop) (xs : list A)
    (body : A → L → M L) (acc : L) (self : Lexicon) :
  I 0 acc →
  (∀ k x acc, xs !! k = Some x → I k acc →
     ∃ acc', body x acc self = (Ok acc', self) ∧ I (S k) acc') →
  ∃ acc', for_each xs body acc self = (Ok acc', self) ∧ I (length xs) acc'.
Proof.
  revert I acc. induction xs as [|x xs IH]; intros I acc H0 Hstep.
  - exists acc. split; [reflexivity | exact H0].
  - destruct (Hstep 0 x acc eq_refl H0) as (acc1 & Hb & H1).
    destruct (IH (λ k, I (S k)) acc1 H1) as (acc2 & Hf & H2).
    { intros k y acc' Hk HI. apply (Hstep (S k) y acc' Hk HI). }
    exists acc2. split; [|exact H2].
    simpl. unfold bind. rewrite Hb. exact Hf.
Qed.

(** ** Edit distance *)

Section edit_distance_facts.
Context {A : Type} `{EqDecision A}.
Implicit Types a b : list A.

Lemma lev_nil_r a : lev a [] = length a.
Proof. destruct a; reflexivity. Qed.

Lemma lev_cons x y a b :
  lev (x :: a) (y :: b)
  = Nat.min (Nat.min (lev a (y :: b) + 1) (lev (x :: a) b + 1))
            (lev a b + if decide (x = y) then 0 else 1).
Proof. reflexivity. Qed.

Lemma lev_refl a : lev a a = 0.
Proof.
  induction a as [|x a IH]; [reflexivity|].
  rewrite lev_cons, IH, decide_True by reflexivity. lia.
Qed.

Lemma lev_delete_le x a b : lev (x :: a) b ≤ S (lev a b).
Proof.
  destruct b as [|y b].
  - rewrite !lev_nil_r. simpl. lia.
  - rewrite lev_cons. lia.
Qed.

Lemma lev_insert_le y a b : lev a (y :: b) ≤ S (lev a b).
Proof.
  destruct a as [|x a].
  - simpl. lia.
  - rewrite lev_cons. lia.
Qed.

(** The reference definition is realised by an edit script ... *)
Lemma lev_script a b : edit_script a b (lev a b).
Proof.
  revert b. induction a as [|x a IHa]; intros b.
  - induction b as [|y b IHb]; simpl; [constructor|].
    apply es_insert, IHb.
  - induction b as [|y b IHb].
    + rewrite lev_nil_r. simpl. apply es_delete.
      specialize (IHa []). rewrite lev_nil_r in IHa. exact IHa.
    + rewrite lev_cons.
      destruct (Nat.min_spec (Nat.min (lev a (y :: b) + 1) (lev (x :: a) b + 1))
                  (lev a b + if decide (x = y) then 0 else 1))
        as [[_ ->]|[_ ->]].
      * destruct (Nat.min_spec (lev a (y :: b) + 1) (lev (x :: a) b + 1))
          as [[_ ->]|[_ ->]]; rewrite Nat.add_1_r.
        -- apply es_delete, IHa.
        -- apply es_insert, IHb.
      * destruct (decide (x = y)) as [->|_].
        -- rewrite Nat.add_0_r. apply es_keep, IHa.
        -- rewrite Nat.add_1_r. apply es_substitute, IHa.
Qed.

(** ... and no edit script is shorter. *)
Lemma lev_least a b n : edit_script a b n → lev a b ≤ n.
Proof.
  induction 1 as [|x a b n _ IH|x y a b n _ IH|x a b n _ IH|y a b n _ IH].
  - reflexivity.
  - rewrite lev_cons, decide_True by reflexivity. lia.
  - rewrite lev_cons. destruct (decide (x = y)); lia.
  - pose proof (lev_delete_le x a b). lia.
  - pose proof (lev_insert_le y a b). lia.
Qed.

Lemma edit_script_snoc_keep x a b n :
  edit_script a b n → edit_script (a ++ [x]) (b ++ [x]) n.
Proof.
  induction 1; simpl; try (constructor; assumption).
  apply es_keep, es_done.
Qed.

Lemma edit_script_snoc_substitute x y a b n :
  edit_script a b n → edit_script (a ++ [x]) (b ++ [y]) (S n).
Proof.
  induction 1; simpl; try (constructor; assumption).
  apply es_substitute, es_done.
Qed.

Lemma edit_script_snoc_delete x a b n :
  edit_script a b n → edit_script (a ++ [x]) b (S n).
Proof.
  induction 1; simpl; try (constructor; assumption).
  apply es_delete, es_done.
Qed.

Lemma edit_script_snoc_insert y a b n :
  edit_script a b n → edit_script a (b ++ [y]) (S n).
Proof.
  induction 1; simpl; try (constructor; assumption).
  apply es_insert, es_done.
Qed.

Lemma edit_script_reverse a b n :
  edit_script a b n → edit_script (reverse a) (reverse b) n.
Proof.
  induction 1; rewrite ?reverse_cons.
  - constructor.
  - by apply edit_script_snoc_keep.
  - by apply edit_script_snoc_substitute.
  - by apply edit_script_snoc_delete.
  - by apply edit_script_snoc_insert.
Qed.

Lemma lev_reverse a b : lev (reverse a) (reverse b) = lev a b.
Proof.
  apply Nat.le_antisymm.
  - apply lev_least, edit_script_reverse, lev_script.
  - rewrite <- (reverse_involutive a), <- (reverse_involutive b) at 1.
    apply lev_least, edit_script_reverse, lev_script.
Qed.

(** The recurrence on the last characters, which is the one the matrix
    is filled with. *)
Lemma lev_snoc x y a b :
  lev (a ++ [x]) (b ++ [y])
  = Nat.min (Nat.min (lev a (b ++ [y]) + 1) (lev (a ++ [x]) b + 1))
            (lev a b + if decide (x = y) then 0 else 1).
Proof.
  rewrite <- (lev_reverse (a ++ [x]) (b ++ [y])), !reverse_snoc, lev_cons.
  rewrite <- (reverse_snoc b y), <- (reverse_snoc a x), !lev_reverse.
  reflexivity.
Qed.

End edit_distance_facts.

(** ** Strings as lists of characters *)

Lemma str_get_chars (s : string) (i : nat) :
  String.get i s = Str.chars s !! i.
Proof.
  revert i. induction s as [|c s IH]; intros [|i]; simpl; try reflexivity.
  apply IH.
Qed.

Lemma str_len_chars (s : string) : Str.len s = length (Str.chars s).
Proof. induction s as [|c s IH]; simpl; [reflexivity | by f_equal]. Qed.

Lemma chars_of_chars (l : list ascii) : Str.chars (Str.of_chars l) = l.
Proof. apply String.list_ascii_of_string_of_list_ascii. Qed.

Lemma of_chars_chars (s : string) : Str.of_chars (Str.chars s) = s.
Proof. apply String.string_of_list_ascii_of_string. Qed.

(** ** The distance matrix *)

Lemma shaped_replicate (rows cols : nat) :
  shaped rows cols (replicate rows (replicate cols 0)).
Proof.
  split; [apply length_replicate|].
  apply Forall_replicate, length_replicate.
Qed.

Lemma shaped_row rows cols matrix i row :
  shaped rows cols matrix → matrix !! i = Some row →
  i < rows ∧ length row = cols.
Proof.
  intros [Hlen Hrows] Hi. split.
  - rewrite <- Hlen. by eapply lookup_lt_Some.
  - by eapply (Forall_lookup_1 _ _ _ _ Hrows).
Qed.

Lemma shaped_lookup rows cols matrix i :
  shaped rows cols matrix → i < rows →
  ∃ row, matrix !! i = Some row ∧ length row = cols.
Proof.
  intros Hs Hi. destruct (lookup_lt_is_Some_2 matrix i) as [row Hrow].
  { destruct Hs as [-> _]. exact Hi. }
  exists row. split; [exact Hrow|]. by eapply shaped_row.
Qed.

Lemma shaped_upd rows cols matrix i j v :
  shaped rows cols matrix → shaped rows cols (matrix_upd matrix i j v).
Proof.
  intros Hs. unfold matrix_upd. destruct (matrix !! i) as [row|] eqn:Hi; [|done].
  destruct (shaped_row _ _ _ _ _ Hs Hi) as [_ Hrow].
  destruct Hs as [Hlen Hrows]. split.
  - by rewrite length_insert.
  - apply Forall_insert; [done|]. by rewrite length_insert.
Qed.

Lemma cell_upd_eq rows cols matrix i j v :
  shaped rows cols matrix → i < rows → j < cols →
  cell (matrix_upd matrix i j v) i j = Some v.
Proof.
  intros Hs Hi Hj. destruct (shaped_lookup _ _ _ _ Hs Hi) as (row & Hrow & Hlen).
  unfold cell, matrix_upd. rewrite Hrow.
  rewrite list_lookup_insert_eq by (by eapply lookup_lt_Some). simpl.
  apply list_lookup_insert_eq. lia.
Qed.

Lemma cell_upd_ne matrix i j v r c :
  r ≠ i ∨ c ≠ j → cell (matrix_upd matrix i j v) r c = cell matrix r c.
Proof.
  intros Hne. unfold cell, matrix_upd.
  destruct (matrix !! i) as [row|] eqn:Hi; [|done].
  destruct (decide (r = i)) as [->|Hr].
  - rewrite list_lookup_insert_eq by (by eapply lookup_lt_Some).
    rewrite Hi. simpl. apply list_lookup_insert_ne.
    destruct Hne as [Hne|Hne]; congruence.
  - by rewrite list_lookup_insert_ne.
Qed.

Lemma matrix_set_ok rows cols matrix i j v self :
  shaped rows cols matrix → i < rows → j < cols →
  matrix_set matrix i j v self = (Ok (matrix_upd matrix i j v), self).
Proof.
  intros Hs Hi Hj. destruct (shaped_lookup _ _ _ _ Hs Hi) as (row & Hrow & Hlen).
  unfold matrix_set, matrix_upd. rewrite Hrow.
  rewrite decide_True by lia. reflexivity.
Qed.

Lemma matrix_get_ok matrix i j v self :
  cell matrix i j = Some v → matrix_get matrix i j self = (Ok v, self).
Proof.
  unfold cell, matrix_get. destruct (matrix !! i) as [row|]; [|done].
  simpl. by intros ->.
Qed.

Lemma str_index_ok word i c self :
  Str.chars word !! i = Some c → str_index word i self = (Ok c, self).
Proof. unfold str_index. rewrite str_get_chars. by intros ->. Qed.

Lemma range_lookup a b k :
  k < b - a → range a b !! k = Some (a + k).
Proof. apply lookup_seq_lt. Qed.

Lemma range_lookup_inv a b k x :
  range a b !! k = Some x → x = a + k ∧ k < b - a.
Proof. apply lookup_seq. Qed.

Lemma length_range a b : length (range a b) = b - a.
Proof. apply length_seq. Qed.

(** A cell of the matrix is filled with the distance between two prefixes. *)
Lemma lev_prefix_step (a b : list ascii) (i j : nat) (x y : ascii) :
  a !! i = Some x → b !! j = Some y →
  lev (take (S i) a) (take (S j) b)
  = Nat.min (Nat.min (lev (take i a) (take (S j) b) + 1)
                     (lev (take (S i) a) (take j b) + 1))
            (lev (take i a) (take j b) + if decide (x = y) then 0 else 1).
Proof.
  intros Ha Hb.
  rewrite (take_S_r a i x Ha), (take_S_r b j y Hb). apply lev_snoc.
Qed.

Lemma lev_prefix_0_l (a b : list ascii) (c : nat) :
  c ≤ length b → lev (take 0 a) (take c b) = c.
Proof. intros Hc. simpl. rewrite length_take. lia. Qed.

Lemma lev_prefix_0_r (a b : list ascii) (r : nat) :
  r ≤ length a → lev (take r a) (take 0 b) = r.
Proof.
  intros Hr. change (take 0 b) with (@nil ascii).
  rewrite lev_nil_r, length_take. lia.
Qed.

Lemma bind_ok {A B} (m : M A) (k : A → M B) (self self' : Lexicon) (a : A) :
  m self = (Ok a, self') → bind m k self = k a self'.
Proof. unfold bind. by intros ->. Qed.

Lemma bind_gets {A B} (f : Lexicon → A) (k : A → M B) (self : Lexicon) :
  bind (gets f) k self = k (f self) self.
Proof. reflexivity. Qed.

Lemma bind_ret {A B} (a : A) (k : A → M B) (self : Lexicon) :
  bind (ret a) k self = k a self.
Proof. reflexivity. Qed.

Section similarity.
Variable self : Lexicon.

Lemma fill_first_column rows cols matrix :
  shaped rows cols matrix → 0 < cols →
  ∃ matrix',
    for_each (range 0 rows) (λ i matrix, matrix_set matrix i 0 i) matrix self
    = (Ok matrix', self)
    ∧ shaped rows cols matrix'
    ∧ ∀ r, r < rows → cell matrix' r 0 = Some r.
Proof.
  intros Hs Hcols.
  destruct (for_each_inv
    (λ k m, shaped rows cols m ∧ ∀ r, r < k → cell m r 0 = Some r)
    (range 0 rows) (λ i matrix, matrix_set matrix i 0 i) matrix self)
    as (m' & Hrun & Hs' & Hcells).
  - split; [exact Hs | lia].
  - intros k x m Hk [Hsm Hm].
    apply range_lookup_inv in Hk as [-> Hk]. simpl.
    exists (matrix_upd m k 0 k). split; [|split].
    + apply (matrix_set_ok rows cols); [done | lia | done].
    + by apply shaped_upd.
    + intros r Hr. destruct (decide (r = k)) as [->|Hne].
      * apply (cell_upd_eq rows cols); [done | lia | done].
      * rewrite cell_upd_ne by (by left). apply Hm. lia.
  - exists m'. rewrite length_range, Nat.sub_0_r in Hcells. done.
Qed.

Lemma fill_first_row rows cols matrix :
  shaped rows cols matrix → 0 < rows →
  (∀ r, r < rows → cell matrix r 0 = Some r) →
  ∃ matrix',
    for_each (range 0 cols) (λ j matrix, matrix_set matrix 0 j j) matrix self
    = (Ok matrix', self)
    ∧ shaped rows cols matrix'
    ∧ (∀ r, r < rows → cell matrix' r 0 = Some r)
    ∧ ∀ c, c < cols → cell matrix' 0 c = Some c.
Proof.
  intros Hs Hrows Hcol.
  destruct (for_each_inv
    (λ k m, shaped rows cols m
            ∧ (∀ r, r < rows → cell m r 0 = Some r)
            ∧ ∀ c, c < k → cell m 0 c = Some c)
    (range 0 cols) (λ j matrix, matrix_set matrix 0 j j) matrix self)
    as (m' & Hrun & Hs' & Hcol' & Hrow').
  - split; [exact Hs | split; [exact Hcol | lia]].
  - intros k x m Hk (Hsm & Hc & Hr).
    apply range_lookup_inv in Hk as [-> Hk]. simpl.
    rewrite Nat.sub_0_r in Hk.
    exists (matrix_upd m 0 k k). split; [|split; [|split]].
    + by apply (matrix_set_ok rows cols).
    + by apply shaped_upd.
    + intros r Hlt. destruct (decide (r = 0 ∧ k = 0)) as [[-> ->]|Hne].
      * by apply (cell_upd_eq rows cols).
      * rewrite cell_upd_ne by lia. by apply Hc.
    + intros c Hlt. destruct (decide (c = k)) as [->|Hne].
      * by apply (cell_upd_eq rows cols).
      * rewrite cell_upd_ne by (by right). apply Hr. lia.
  - exists m'. rewrite length_range, Nat.sub_0_r in Hrow'. done.
Qed.

Variables word1 word2 : string.

Lemma similarity_cell_ok i j matrix :
  1 ≤ i ≤ length (Str.chars word1) →
  1 ≤ j ≤ length (Str.chars word2) →
  dp_inv (Str.chars word1) (Str.chars word2) i j matrix →
  ∃ matrix',
    similarity_cell word1 word2 i j matrix self = (Ok matrix', self)
    ∧ dp_inv (Str.chars word1) (Str.chars word2) i (S j) matrix'.
Proof.
  set (a := Str.chars word1). set (b := Str.chars word2).
  intros Hi Hj [Hs Hcells].
  destruct (lookup_lt_is_Some_2 a (i - 1)) as [x Hx]; [lia|].
  destruct (lookup_lt_is_Some_2 b (j - 1)) as [y Hy]; [lia|].
  pose proof (lev_prefix_step a b (i - 1) (j - 1) x y Hx Hy) as Hrec.
  replace (S (i - 1)) with i in Hrec by lia.
  replace (S (j - 1)) with j in Hrec by lia.
  unfold similarity_cell.
  rewrite (bind_ok _ _ _ _ _ (str_index_ok word1 (i - 1) x self Hx)).
  rewrite (bind_ok _ _ _ _ _ (str_index_ok word2 (j - 1) y self Hy)).
  rewrite (bind_ok _ _ _ _ _ (matrix_get_ok matrix (i - 1) j _ self
             (Hcells (i - 1) j ltac:(lia) ltac:(lia) ltac:(lia)))).
  rewrite (bind_ok _ _ _ _ _ (matrix_get_ok matrix i (j - 1) _ self
             (Hcells i (j - 1) ltac:(lia) ltac:(lia) ltac:(lia)))).
  rewrite (bind_ok _ _ _ _ _ (matrix_get_ok matrix (i - 1) (j - 1) _ self
             (Hcells (i - 1) (j - 1) ltac:(lia) ltac:(lia) ltac:(lia)))).
  rewrite <- Hrec.
  eexists. split.
  - apply (matrix_set_ok _ _ _ _ _ _ _ Hs); lia.
  - split; [by apply shaped_upd|].
    intros r c Hr Hc Hdone.
    destruct (decide (r = i ∧ c = j)) as [[-> ->]|Hne].
    + apply (cell_upd_eq _ _ _ _ _ _ Hs); lia.
    + rewrite cell_upd_ne by lia. apply Hcells; lia.
Qed.

Lemma similarity_row_ok i matrix :
  1 ≤ i ≤ length (Str.chars word1) →
  dp_inv (Str.chars word1) (Str.chars word2) i 0 matrix →
  ∃ matrix',
    similarity_row word1 word2 (Str.len word2) i matrix self
    = (Ok matrix', self)
    ∧ dp_inv (Str.chars word1) (Str.chars word2) (S i) 0 matrix'.
Proof.
  intros Hi Hinv. unfold similarity_row.
  destruct (for_each_inv
    (λ k m, dp_inv (Str.chars word1) (Str.chars word2) i (1 + k) m)
    (range 1 (Str.len word2 + 1)) (similarity_cell word1 word2 i)
    matrix self) as (m' & Hrun & Hinv').
  - destruct Hinv as [Hs Hcells]. split; [exact Hs|].
    intros r c Hr Hc Hdone. apply Hcells; lia.
  - intros k x m Hk Hm. apply range_lookup_inv in Hk as [-> Hk].
    rewrite str_len_chars in Hk.
    apply similarity_cell_ok; [lia | lia | exact Hm].
  - exists m'. split; [exact Hrun|].
    rewrite length_range, str_len_chars in Hinv'.
    destruct Hinv' as [Hs Hcells]. split; [exact Hs|].
    intros r c Hr Hc Hdone. apply Hcells; lia.
Qed.

Lemma similarity_rows_ok matrix :
  dp_inv (Str.chars word1) (Str.chars word2) 1 0 matrix →
  ∃ matrix',
    for_each (range 1 (Str.len word1 + 1))
      (similarity_row word1 word2 (Str.len word2)) matrix self
    = (Ok matrix', self)
    ∧ dp_inv (Str.chars word1) (Str.chars word2)
             (S (length (Str.chars word1))) 0 matrix'.
Proof.
  intros Hinv.
  destruct (for_each_inv
    (λ k m, dp_inv (Str.chars word1) (Str.chars word2) (1 + k) 0 m)
    (range 1 (Str.len word1 + 1))
    (similarity_row word1 word2 (Str.len word2)) matrix self)
    as (m' & Hrun & Hinv').
  - exact Hinv.
  - intros k x m Hk Hm. apply range_lookup_inv in Hk as [-> Hk].
    rewrite str_len_chars in Hk.
    apply similarity_row_ok; [lia | exact Hm].
  - exists m'. split; [exact Hrun|].
    rewrite length_range, str_len_chars in Hinv'.
    replace (1 + (length (Str.chars word1) + 1 - 1))
      with (S (length (Str.chars word1))) in Hinv' by lia.
    exact Hinv'.
Qed.

(** [calculate_similarity] returns the Levenshtein distance, raises
    nothing and leaves the object as it was. *)
Lemma calculate_similarity_ok :
  calculate_similarity word1 word2 self = (Ok (levenshtein word1 word2), self).
Proof.
  unfold calculate_similarity, levenshtein.
  destruct (decide (word1 = word2)) as [->|Hne].
  { by rewrite lev_refl. }
  rewrite !str_len_chars.
  destruct (fill_first_column (length (Str.chars word1) + 1)
              (length (Str.chars word2) + 1) _
              (shaped_replicate _ _) ltac:(lia)) as (m1 & Hrun1 & Hs1 & Hc1).
  rewrite (bind_ok _ _ _ _ _ Hrun1).
  destruct (fill_first_row _ _ m1 Hs1 ltac:(lia) Hc1)
    as (m2 & Hrun2 & Hs2 & Hc2 & Hr2).
  rewrite (bind_ok _ _ _ _ _ Hrun2).
  destruct (similarity_rows_ok m2) as (m3 & Hrun3 & Hs3 & Hcells).
  { split; [exact Hs2|]. intros r c Hr Hc Hdone.
    destruct (decide (r = 0)) as [->|Hr0].
    - rewrite lev_prefix_0_l by done. apply Hr2. lia.
    - assert (c = 0) as -> by lia.
      rewrite lev_prefix_0_r by done. apply Hc2. lia. }
  rewrite !str_len_chars in Hrun3.
  rewrite (bind_ok _ _ _ _ _ Hrun3).
  apply matrix_get_ok.
  rewrite (Hcells (length (Str.chars word1)) (length (Str.chars word2))) by lia.
  by rewrite !firstn_all.
Qed.

End similarity.

(** ** The fuzzy search *)

Lemma len_empty (s : string) : Str.len s = 0 → s = EmptyString.
Proof. by destruct s. Qed.

Lemma true_div_ok (a : Q) (n : nat) (self : Lexicon) :
  n ≠ 0 →
  true_div a (Q_of_nat n) self = (Ok (a / Q_of_nat n)%Q, self).
Proof.
  intros Hn. unfold true_div.
  destruct (Qeq_bool (Q_of_nat n) 0) eqn:Hz; [|reflexivity].
  apply Qeq_bool_iff in Hz. unfold Qeq, Q_of_nat in Hz. simpl in Hz. lia.
Qed.

Section fuzzy_search.
Variable set_order : gset string → list string.

Lemma find_suggestions_step_ok word max_distance dict_word suggestions self :
  word ≠ EmptyString ∨ dict_word ≠ EmptyString →
  find_suggestions_step word max_distance dict_word suggestions self
  = (Ok (suggestions
         ++ option_list (candidate self word max_distance dict_word)), self).
Proof.
  intros Hne. unfold find_suggestions_step, candidate.
  rewrite (bind_ok _ _ _ _ _ (calculate_similarity_ok self word dict_word)).
  destruct (decide (levenshtein word dict_word ≤ max_distance)); simpl.
  - assert (Str.len word `max` Str.len dict_word ≠ 0) as Hmax.
    { intros Hz. destruct Hne as [Hne|Hne]; apply Hne, len_empty; lia. }
    by rewrite (bind_ok _ _ _ _ _ (true_div_ok _ _ self Hmax)).
  - unfold ret. by rewrite app_nil_r.
Qed.

Lemma find_suggestions_loop_ok word max_distance dict_words suggestions self :
  word ≠ EmptyString ∨ EmptyString ∉ dict_words →
  for_each dict_words (find_suggestions_step word max_distance)
           suggestions self
  = (Ok (suggestions ++ omap (candidate self word max_distance) dict_words),
     self).
Proof.
  revert suggestions.
  induction dict_words as [|w ws IH]; intros suggestions Hne; simpl.
  - unfold ret. by rewrite app_nil_r.
  - assert (word ≠ EmptyString ∨ w ≠ EmptyString) as Hw.
    { destruct Hne as [Hne|Hne]; [by left | right].
      apply not_elem_of_cons in Hne as [Hne _]. congruence. }
    rewrite (bind_ok _ _ _ _ _
               (find_suggestions_step_ok word max_distance w suggestions self Hw)).
    rewrite IH.
    + rewrite <- app_assoc. by destruct (candidate self word max_distance w).
    + destruct Hne as [Hne|Hne]; [by left | right].
      by apply not_elem_of_cons in Hne as [_ Hne].
Qed.

(** The three exits of [find_suggestions]. *)
Lemma find_suggestions_known word max_suggestions self :
  Str.lower word ∈ dictionary self →
  find_suggestions set_order word max_suggestions self
  = (Ok [Str.lower word], self).
Proof.
  intros Hin. unfold find_suggestions, bind, gets.
  by rewrite bool_decide_eq_true_2.
Qed.

Lemma find_suggestions_learned word max_suggestions self fixed :
  Str.lower word ∉ dictionary self →
  learned_fixes self !! Str.lower word = Some fixed →
  find_suggestions set_order word max_suggestions self = (Ok [fixed], self).
Proof.
  intros Hin Hfix. unfold find_suggestions, bind, gets, learned_fixes_getitem.
  rewrite bool_decide_eq_false_2 by done.
  rewrite bool_decide_eq_true_2 by (by rewrite Hfix).
  by rewrite Hfix.
Qed.

Lemma find_suggestions_fuzzy word max_suggestions self :
  Str.lower word ∉ dictionary self →
  learned_fixes self !! Str.lower word = None →
  (∀ w, w ∈ set_order (dictionary self) → w ∈ dictionary self) →
  find_suggestions set_order word max_suggestions self
  = (Ok (fuzzy_suggestions self (Str.lower word) max_suggestions
           (set_order (dictionary self))), self).
Proof.
  intros Hin Hfix Hsub. unfold find_suggestions.
  rewrite bind_gets, bool_decide_eq_false_2 by done.
  rewrite bind_gets, bool_decide_eq_false_2 by (rewrite Hfix; by intros [? ?]).
  rewrite bind_gets.
  assert (Str.lower word ≠ EmptyString ∨ EmptyString ∉ set_order (dictionary self)) as Hne.
  { destruct (decide (Str.lower word = EmptyString)) as [Hempty|Hne]; [right | by left].
    intros Hmem. apply Hin. rewrite Hempty. by apply Hsub. }
  by rewrite (bind_ok _ _ _ _ _
                (find_suggestions_loop_ok (Str.lower word) _ _ [] self Hne)).
Qed.

End fuzzy_search.

(** ** Sorting and slicing *)

Section stable_sort_facts.
Context {A : Type} (key_le : A → A → bool).

Lemma insert_desc_perm (x : A) (l : list A) :
  insert_desc key_le x l ≡ₚ x :: l.
Proof.
  induction l as [|y l IH]; simpl; [reflexivity|].
  destruct (key_le y x); [reflexivity|].
  rewrite IH. apply perm_swap.
Qed.

Lemma sort_desc_perm (l : list A) : sort_desc key_le l ≡ₚ l.
Proof.
  induction l as [|x l IH]; simpl; [reflexivity|].
  by rewrite insert_desc_perm, IH.
Qed.

(** When the elements satisfying [top] are above all the others and
    there is one, the sorted list starts with one of them. *)
Lemma sort_desc_head (top : A → bool) (l : list A) :
  (∀ y z, y ∈ l → z ∈ l → top y = true → key_le z y = true) →
  (∀ y z, y ∈ l → z ∈ l → top y = true → top z = false →
          key_le y z = false) →
  existsb top l = true →
  ∃ x rest, sort_desc key_le l = x :: rest ∧ top x = true.
Proof.
  induction l as [|z l IH]; intros Hge Hgt Hex; [discriminate|].
  simpl in *. destruct (existsb top l) eqn:Hl.
  - destruct IH as (x & rest & Hsort & Hx); [| |reflexivity|].
    { intros y y' Hy Hy'. apply Hge; by right. }
    { intros y y' Hy Hy'. apply Hgt; by right. }
    rewrite Hsort. simpl.
    assert (x ∈ l) as Hxl.
    { rewrite <- (sort_desc_perm l), Hsort. by left. }
    destruct (key_le x z) eqn:Hxz.
    + exists z, (x :: rest). split; [reflexivity|].
      destruct (top z) eqn:Hz; [reflexivity|].
      rewrite (Hgt x z) in Hxz; [discriminate | by right | by left | done..].
    + by exists x, (insert_desc key_le z rest).
  - rewrite orb_false_r in Hex.
    destruct (sort_desc key_le l) as [|y s] eqn:Hsort; simpl.
    + by exists z, [].
    + assert (y ∈ l) as Hyl.
      { rewrite <- (sort_desc_perm l), Hsort. by left. }
      rewrite (Hge z y); [|by left | by right | done].
      by exists z, (y :: s).
Qed.

End stable_sort_facts.

Lemma slice_to_subseteq {A} (n : Z) (l : list A) : slice_to n l ⊆ l.
Proof. unfold slice_to. destruct (n <? 0)%Z; apply subseteq_take. Qed.

Lemma slice_to_cons {A} (n : Z) (x : A) (l : list A) :
  (1 ≤ n)%Z → slice_to n (x :: l) = x :: take (Z.to_nat n - 1) l.
Proof.
  intros Hn. unfold slice_to.
  destruct (Z.ltb_spec n 0) as [?|_]; [lia|].
  destruct (Z.to_nat n) as [|k] eqn:Hk; [lia|].
  simpl. by rewrite Nat.sub_0_r.
Qed.

Lemma slice_to_nil {A} (n : Z) : slice_to n (@nil A) = [].
Proof. unfold slice_to. destruct (n <? 0)%Z; apply take_nil. Qed.

(** ** Case conversion *)

Lemma len_lower (s : string) : Str.len (Str.lower s) = Str.len s.
Proof.
  unfold Str.lower. by rewrite !str_len_chars, chars_of_chars, length_fmap.
Qed.

Lemma len_upper (s : string) : Str.len (Str.upper s) = Str.len s.
Proof.
  unfold Str.upper. by rewrite !str_len_chars, chars_of_chars, length_fmap.
Qed.

(** ** What the fuzzy search returns *)

Lemma candidate_spec self word max_distance dict_word c :
  candidate self word max_distance dict_word = Some c →
  fst (fst c) = dict_word
  ∧ snd c = levenshtein word dict_word
  ∧ levenshtein word dict_word ≤ max_distance.
Proof.
  unfold candidate. case_decide; [|done]. by intros [= <-].
Qed.

Lemma fuzzy_suggestions_spec self word max_suggestions dict_words w :
  w ∈ fuzzy_suggestions self word max_suggestions dict_words →
  w ∈ dict_words
  ∧ levenshtein word w ≤ 3 `min` (Str.len word / 2 + 1).
Proof.
  unfold fuzzy_suggestions. intros Hw.
  apply list_elem_of_fmap in Hw as (c & -> & Hc).
  apply slice_to_subseteq in Hc.
  rewrite sort_desc_perm in Hc.
  apply list_elem_of_omap in Hc as (dw & Hdw & Hcand).
  apply candidate_spec in Hcand as (-> & _ & Hle). done.
Qed.

(** ** Methods that only read the object *)

Create HintDb frame.

Lemma read_only_ret {A} (a : A) : read_only (ret a).
Proof. by intros self. Qed.

Lemma read_only_raise {A} (e : exn) : read_only (@raise A e).
Proof. by intros self. Qed.

Lemma read_only_gets {A} (f : Lexicon → A) : read_only (gets f).
Proof. by intros self. Qed.

Lemma read_only_bind {A B} (m : M A) (k : A → M B) :
  read_only m → (∀ a, read_only (k a)) → read_only (bind m k).
Proof.
  intros Hm Hk self. unfold bind. specialize (Hm self).
  destruct (m self) as [[a|e] self']; simpl in *; subst; [apply Hk | done].
Qed.

Lemma read_only_for_each {A L} (xs : list A) (body : A → L → M L) (acc : L) :
  (∀ x acc, read_only (body x acc)) → read_only (for_each xs body acc).
Proof.
  intros Hbody. revert acc. induction xs as [|x xs IH]; intros acc; simpl.
  - apply read_only_ret.
  - apply read_only_bind; [apply Hbody | apply IH].
Qed.

#[local] Hint Resolve read_only_ret read_only_raise read_only_gets : frame.

(** Splits a method body along its binds, loops, tests and matches. *)
Ltac frame :=
  repeat first
    [ progress eauto with frame
    | apply read_only_bind; [|intros ?]
    | apply read_only_for_each; intros ? ?
    | case_decide
    | case_match ].

Lemma read_only_matrix_get matrix i j : read_only (matrix_get matrix i j).
Proof. unfold matrix_get. frame. Qed.

Lemma read_only_matrix_set matrix i j v : read_only (matrix_set matrix i j v).
Proof. unfold matrix_set. frame. Qed.

Lemma read_only_str_index word i : read_only (str_index word i).
Proof. unfold str_index. frame. Qed.

Lemma read_only_true_div a b : read_only (true_div a b).
Proof. unfold true_div. frame. Qed.

Lemma read_only_learned_fixes_getitem word :
  read_only (learned_fixes_getitem word).
Proof. intros self. unfold learned_fixes_getitem. by case_match. Qed.

Lemma read_only_dots_to_letter dots : read_only (dots_to_letter dots).
Proof. unfold dots_to_letter. frame. Qed.

#[local] Hint Resolve read_only_matrix_get read_only_matrix_set
  read_only_str_index read_only_true_div read_only_learned_fixes_getitem
  read_only_dots_to_letter : frame.

Lemma read_only_convert_braille_step char acc :
  read_only (convert_braille_step char acc).
Proof. unfold convert_braille_step. frame. Qed.

#[local] Hint Resolve read_only_convert_braille_step : frame.

Lemma read_only_convert_braille_input input_text :
  read_only (convert_braille_input input_text).
Proof. unfold convert_braille_input. frame. Qed.

Lemma read_only_similarity_cell word1 word2 i j matrix :
  read_only (similarity_cell word1 word2 i j matrix).
Proof. unfold similarity_cell. frame. Qed.

#[local] Hint Resolve read_only_similarity_cell : frame.

Lemma read_only_similarity_row word1 word2 len2 i matrix :
  read_only (similarity_row word1 word2 len2 i matrix).
Proof. unfold similarity_row. frame. Qed.

#[local] Hint Resolve read_only_similarity_row : frame.

Lemma read_only_calculate_similarity word1 word2 :
  read_only (calculate_similarity word1 word2).
Proof. unfold calculate_similarity. frame. Qed.

#[local] Hint Resolve read_only_convert_braille_input
  read_only_calculate_similarity : frame.

Lemma read_only_find_suggestions_step word max_distance dict_word acc :
  read_only (find_suggestions_step word max_distance dict_word acc).
Proof. unfold find_suggestions_step. frame. Qed.

#[local] Hint Resolve read_only_find_suggestions_step : frame.

Lemma read_only_find_suggestions set_order word max_suggestions :
  read_only (find_suggestions set_order word max_suggestions).
Proof. unfold find_suggestions. frame. Qed.

#[local] Hint Resolve read_only_find_suggestions : frame.

Lemma read_only_autocorrect_step set_order max_suggestions word results :
  read_only (autocorrect_step set_order max_suggestions word results).
Proof. unfold autocorrect_step. frame. Qed.

#[local] Hint Resolve read_only_autocorrect_step : frame.

Lemma read_only_autocorrect set_order text max_suggestions :
  read_only (autocorrect set_order text max_suggestions).
Proof. unfold autocorrect. frame. Qed.

Lemma read_only_get_stats : read_only get_stats.
Proof. unfold get_stats. frame. Qed.

(** ** Ordered dictionaries *)

Lemma odict_get_set_eq {V} (k : string) (v : V) (d : ODict.t V) :
  ODict.get k (ODict.set k v d) = Some v.
Proof.
  induction d as [|[k' v'] d IH]; simpl.
  - by rewrite decide_True.
  - destruct (decide (k' = k)) as [->|Hne]; simpl.
    + by rewrite decide_True.
    + by rewrite decide_False.
Qed.

Lemma odict_get_set_ne {V} (k k' : string) (v : V) (d : ODict.t V) :
  k ≠ k' → ODict.get k' (ODict.set k v d) = ODict.get k' d.
Proof.
  intros Hne. induction d as [|[k0 v0] d IH]; simpl.
  - by rewrite decide_False.
  - destruct (decide (k0 = k)) as [->|Hk0]; simpl.
    + by rewrite !decide_False.
    + destruct (decide (k0 = k')); [done | exact IH].
Qed.

(** ** [add_word] and [learn_correction] *)

Lemma add_word_run (word : string) (self : Lexicon) :
  add_word word self
  = (Ok tt,
     let word := Str.strip (Str.lower word) in
     if decide (word = EmptyString) then self
     else {| dictionary := {[ word ]} ∪ dictionary self;
             word_count :=
               ODict.set word (frequency_of self word + 1) (word_count self);
             learned_fixes := learned_fixes self |}).
Proof. unfold add_word. simpl. by case_decide. Qed.

Lemma learn_correction_run (wrong_word correct_word : string) (self : Lexicon) :
  learn_correction wrong_word correct_word self
  = add_word (Str.lower correct_word)
      {| dictionary := dictionary self;
         word_count := word_count self;
         learned_fixes :=
           <[ Str.lower wrong_word := Str.lower correct_word ]>
             (learned_fixes self) |}.
Proof. reflexivity. Qed.

Lemma add_word_dictionary (word : string) (self : Lexicon) :
  dictionary self ⊆ dictionary (snd (add_word word self)).
Proof. rewrite add_word_run. simpl. case_decide; simpl; set_solver. Qed.

Lemma add_word_learned_fixes (word : string) (self : Lexicon) :
  learned_fixes (snd (add_word word self)) = learned_fixes self.
Proof. rewrite add_word_run. simpl. by case_decide. Qed.

Lemma lower_char_idemp (c : ascii) :
  Str.lower_char (Str.lower_char c) = Str.lower_char c.
Proof. destruct c as [[] [] [] [] [] [] [] []]; reflexivity. Qed.

Lemma lower_idemp (s : string) : Str.lower (Str.lower s) = Str.lower s.
Proof.
  unfold Str.lower. rewrite chars_of_chars. f_equal.
  rewrite <- list_fmap_compose. apply list_fmap_ext.
  intros _ c _. apply lower_char_idemp.
Qed.

Lemma initial_learned_fixes : learned_fixes initial_lexicon = ∅.
Proof. vm_compute. reflexivity. Qed.

(** What remains of the learned-fix invariant for arbitrary arguments:
    a learned value that is not blank and carries no surrounding
    whitespace is a known word. *)
Lemma learned_values_known (self : Lexicon) :
  reachable self →
  ∀ wrong fixed, learned_fixes self !! wrong = Some fixed →
    Str.strip fixed = fixed → fixed ≠ EmptyString → fixed ∈ dictionary self.
Proof.
  induction 1 as [|self word _ IH|self wrong_word correct_word _ IH];
    intros wrong fixed Hfix Hstrip Hne.
  - by rewrite initial_learned_fixes in Hfix.
  - rewrite add_word_learned_fixes in Hfix.
    apply add_word_dictionary. by eapply IH.
  - rewrite learn_correction_run in Hfix |- *.
    rewrite add_word_learned_fixes in Hfix. simpl in Hfix.
    destruct (decide (Str.lower wrong_word = wrong)) as [<-|Hother].
    + rewrite lookup_insert_eq in Hfix. injection Hfix as <-.
      rewrite add_word_run. simpl. rewrite lower_idemp, Hstrip.
      rewrite decide_False by done. simpl. set_solver.
    + rewrite lookup_insert_ne in Hfix by done.
      apply add_word_dictionary. simpl. by eapply IH.
Qed.

(** ** Decoding one chord *)

Lemma DOT_TO_LETTER_keys (p : list nat) (letter : string) :
  DOT_TO_LETTER !! p = Some letter → Sorted (≤) p ∧ NoDup p ∧ p ≠ [].
Proof.
  intros Hp. apply elem_of_list_to_map_2 in Hp.
  assert (Forall (λ e, Sorted (≤) e.1 ∧ NoDup e.1 ∧ e.1 ≠ [])
                 DOT_TO_LETTER_items) as Hall.
  { apply (bool_decide_unpack _). vm_compute. exact I. }
  rewrite Forall_forall in Hall. apply (Hall _ Hp).
Qed.

Lemma space_is_no_key : BRAILLE_KEYS !! " "%char = None.
Proof. vm_compute. reflexivity. Qed.

(** A run of chord keys only adds dots to the current chord. *)
Lemma convert_braille_keys (keys : list ascii) (dots : list nat)
    (result : list string) (current_dots : gset nat) (self : Lexicon) :
  (BRAILLE_KEYS !!.) <$> keys = Some <$> dots →
  for_each keys convert_braille_step (result, current_dots) self
  = (Ok (result, list_to_set dots ∪ current_dots), self).
Proof.
  revert dots current_dots.
  induction keys as [|c keys IH]; intros [|d dots] current_dots Hkeys;
    try discriminate; simpl.
  - unfold ret. do 3 f_equal. by rewrite union_empty_l_L.
  - injection Hkeys as Hc Hkeys.
    unfold bind, convert_braille_step at 1.
    rewrite decide_False by (intros ->; by rewrite space_is_no_key in Hc).
    rewrite Hc. unfold ret at 1. rewrite (IH dots) by done.
    do 3 f_equal.
    by rewrite (assoc_L (∪)), (comm_L (∪) (list_to_set dots) {[d]}).
Qed.

Lemma str_append_empty_r (s : string) : String.append s EmptyString = s.
Proof.
  induction s as [|c s IH]; [done|].
  change (String c (String.append s EmptyString) = String c s). by rewrite IH.
Qed.

Lemma sorted_elements_of_pattern (p dots : list nat) :
  Sorted (≤) p → NoDup p → dots ≡ₚ p →
  merge_sort (≤) (elements (list_to_set dots ∪ (∅ : gset nat))) = p.
Proof.
  intros Hsorted Hnodup Hperm.
  apply (Sorted_unique (≤)); [apply Sorted_merge_sort; apply _ | done |].
  rewrite merge_sort_Permutation, union_empty_r_L.
  rewrite elements_list_to_set by (by rewrite Hperm).
  exact Hperm.
Qed.

(** ** Edit distance as a least number of single edits *)

Section single_edit_facts.
Context {A : Type} `{EqDecision A}.
Implicit Types a b c : list A.

Lemma edits_skip x n a b : edits n a b → edits n (x :: a) (x :: b).
Proof.
  induction 1 as [a|n a c b Hstep _ IH]; [constructor|].
  eapply edits_S; [apply e1_skip, Hstep | exact IH].
Qed.

Lemma edit_script_edits a b n : edit_script a b n → edits n a b.
Proof.
  induction 1 as [|x a b n _ IH|x y a b n _ IH|x a b n _ IH|y a b n _ IH].
  - constructor.
  - by apply edits_skip.
  - eapply edits_S; [apply (e1_substitute x y) | by apply edits_skip].
  - eapply edits_S; [apply e1_delete | exact IH].
  - eapply edits_S; [apply (e1_insert y) | by apply edits_skip].
Qed.

Lemma lev_uncons_le y a b : lev a b ≤ S (lev (y :: a) b).
Proof.
  induction b as [|z b IH].
  - rewrite !lev_nil_r. simpl. lia.
  - rewrite lev_cons. pose proof (lev_insert_le z a b). lia.
Qed.

Lemma lev_substitute_le x y a b : lev (x :: a) b ≤ S (lev (y :: a) b).
Proof.
  induction b as [|z b IH].
  - rewrite !lev_nil_r. simpl. lia.
  - rewrite !lev_cons.
    destruct (decide (x = z)), (decide (y = z)); lia.
Qed.

(** One edit of the first word moves the distance by at most one. *)
Lemma lev_edit1 a c : edit1 a c → ∀ b, lev a b ≤ S (lev c b).
Proof.
  induction 1 as [y a|x a|x y a|x a c _ IH]; intros b.
  - apply lev_uncons_le.
  - pose proof (lev_delete_le x a b). lia.
  - apply lev_substitute_le.
  - induction b as [|z b IHb].
    + rewrite !lev_nil_r. simpl.
      pose proof (IH []) as Hnil. rewrite !lev_nil_r in Hnil. lia.
    + rewrite !lev_cons.
      pose proof (IH (z :: b)). pose proof (IH b). lia.
Qed.

Lemma lev_edits n a b : edits n a b → lev a b ≤ n.
Proof.
  induction 1 as [a|n a c b Hstep _ IH].
  - by rewrite lev_refl.
  - pose proof (lev_edit1 a c Hstep b). lia.
Qed.

End single_edit_facts.

(** ** The candidates for the word [hel] in the initial lexicon *)

Lemma initial_dictionary : dictionary initial_lexicon = list_to_set basic_words.
Proof. vm_compute. reflexivity. Qed.

Lemma basic_words_NoDup : NoDup basic_words.
Proof. apply (bool_decide_unpack _). vm_compute. exact I. Qed.

(** The candidates for ["hel"] in the initial lexicon, whatever the order in
    which they are found: ["her"] scores above all the others. *)
Lemma her_scores_highest (c t : string * Q * nat) :
  c ∈ omap (candidate initial_lexicon "hel" 2) basic_words →
  t ∈ omap (candidate initial_lexicon "hel" 2) basic_words →
  is_word "her" t = true →
  score_le c t = true ∧ (is_word "her" c = false → score_le t c = false).
Proof.
  intros Hc Ht Htop.
  assert (Forall (λ t, Forall (λ c,
            is_word "her" t = true →
            score_le c t = true
            ∧ (is_word "her" c = false → score_le t c = false))
            (omap (candidate initial_lexicon "hel" 2) basic_words))
            (omap (candidate initial_lexicon "hel" 2) basic_words)) as Hall.
  { apply (bool_decide_unpack _). vm_compute. exact I. }
  rewrite Forall_forall in Hall. specialize (Hall t Ht).
  rewrite Forall_forall in Hall. by apply Hall.
Qed.

Lemma her_is_candidate :
  ∃ t, t ∈ omap (candidate initial_lexicon "hel" 2) basic_words
       ∧ is_word "her" t = true.
Proof.
  apply Exists_exists. apply (bool_decide_unpack _). vm_compute. exact I.
Qed.

(** * The claims *)

Section claims.

(** The order in which the dictionary is visited: any enumeration. *)
Variable set_order : gset string → list string.
Hypothesis set_order_enum : ∀ s, set_order s ≡ₚ elements s.

Lemma set_order_elem_of (s : gset string) (w : string) :
  w ∈ set_order s → w ∈ s.
Proof using set_order_enum.
  rewrite set_order_enum. apply elem_of_elements.
Qed.

Lemma set_order_empty : set_order ∅ = [].
Proof using set_order_enum.
  apply Permutation_nil_r. by rewrite set_order_enum, elements_empty.
Qed.

Lemma initial_candidates :
  omap (candidate initial_lexicon "hel" 2)
       (set_order (dictionary initial_lexicon))
  ≡ₚ omap (candidate initial_lexicon "hel" 2) basic_words.
Proof using set_order_enum.
  apply omap_Permutation.
  rewrite set_order_enum, initial_dictionary.
  apply elements_list_to_set, basic_words_NoDup.
Qed.

Lemma find_suggestions_hel (n : Z) :
  (1 ≤ n)%Z →
  ∃ others,
    find_suggestions set_order "hel" n initial_lexicon
    = (Ok ("her" :: others), initial_lexicon).
Proof using set_order_enum.
  intros Hn. rewrite find_suggestions_fuzzy.
  - destruct (sort_desc_head score_le (is_word "her")
                (omap (candidate initial_lexicon "hel" 2)
                      (set_order (dictionary initial_lexicon))))
      as (x & rest & Hsort & Hx).
    + intros y z Hy Hz Htop. rewrite initial_candidates in Hy, Hz.
      by apply (her_scores_highest z y).
    + intros y z Hy Hz Htop Hlow. rewrite initial_candidates in Hy, Hz.
      by apply (her_scores_highest z y).
    + destruct her_is_candidate as (t & Ht & Htop).
      apply existsb_exists. exists t. split; [|exact Htop].
      apply list_elem_of_In. by rewrite initial_candidates.
    + unfold fuzzy_suggestions.
      change (Str.lower "hel") with "hel".
      change (3 `min` (Str.len "hel" / 2 + 1)) with 2.
      rewrite Hsort, slice_to_cons by done. simpl.
      apply bool_decide_eq_true_1 in Hx. rewrite Hx. by eexists.
  - apply (bool_decide_unpack _). vm_compute. exact I.
  - rewrite initial_learned_fixes. apply lookup_empty.
  - intros w. rewrite set_order_enum. apply elem_of_elements.
Qed.

(** C1 (the code departs from the claim): on the fresh lexicon,
    [autocorrect("helo", n)] with [n >= 1] returns exactly one result,
    but the letter [o] is taken for the chord key [O]: the text is decoded
    to ["hel?"], the word looked up is ["hel"], and the best match is
    ["her"], not ["hello"], in whatever order the dictionary is
    visited. *)
Theorem autocorrect_helo (n : Z) :
  (1 ≤ n)%Z →
  ∃ others,
    autocorrect set_order "helo" n initial_lexicon
    = (Ok [ {| original := "hel?";
               suggestions := "her" :: others;
               best_match := "her" |} ],
       initial_lexicon).
Proof using set_order_enum.
  intros Hn. destruct (find_suggestions_hel n Hn) as (others & Hfind).
  exists others. unfold autocorrect.
  change (existsb _ (Str.chars (Str.upper "helo"))) with true.
  assert (convert_braille_input "helo" initial_lexicon
          = (Ok "hel?", initial_lexicon)) as Hdecode
    by (vm_compute; reflexivity).
  rewrite (bind_ok _ _ _ _ _ Hdecode).
  change (Str.split "hel?") with ["hel?"].
  unfold for_each, autocorrect_step.
  change (Str.of_chars (filter _ (Str.chars "hel?"))) with "hel".
  rewrite decide_False by done.
  rewrite (bind_ok _ _ _ _ _ (bind_ok _ _ _ _ _ Hfind)).
  reflexivity.
Qed.

(** C2: [calculate_similarity] returns, without raising and without
    touching the object, the Levenshtein distance of the reference recursive
    definition; that distance is a number of single-character insertions,
    deletions and substitutions that turns the first word into the second,
    and no smaller number of them does. *)
Theorem calculate_similarity_is_levenshtein (self : Lexicon) (w1 w2 : string) :
  calculate_similarity w1 w2 self = (Ok (levenshtein w1 w2), self)
  ∧ edits (levenshtein w1 w2) (Str.chars w1) (Str.chars w2)
  ∧ ∀ n, edits n (Str.chars w1) (Str.chars w2) → levenshtein w1 w2 ≤ n.
Proof.
  split_and!.
  - apply calculate_similarity_ok.
  - apply edit_script_edits, lev_script.
  - intros n. apply lev_edits.
Qed.

(** C3: for every dot pattern [p] of the letter table and every string made
    of the chord keys of the dots of [p], in any order and any letter case
    and with nothing else, decoding the string yields exactly the letter
    the table gives to [p]. *)
Theorem decode_chord (self : Lexicon) (p : list nat) (letter : string)
    (keys : list ascii) :
  DOT_TO_LETTER !! p = Some letter →
  (λ c, BRAILLE_KEYS !! Str.upper_char c) <$> keys ≡ₚ Some <$> p →
  convert_braille_input (Str.of_chars keys) self = (Ok letter, self).
Proof.
  intros Hletter Hkeys.
  destruct (DOT_TO_LETTER_keys p letter Hletter) as (Hsorted & Hnodup & Hne).
  apply Permutation_map_inv in Hkeys as (dots & Hdots & Hperm).
  symmetry in Hperm.
  assert ((BRAILLE_KEYS !!.) <$> (Str.upper_char <$> keys) = Some <$> dots)
    as Hupper by (rewrite <- list_fmap_compose; exact Hdots).
  assert (list_to_set dots ∪ ∅ ≠ (∅ : gset nat)) as Hchord.
  { destruct dots as [|d dots].
    - destruct Hne. symmetry. by apply Permutation_nil_l.
    - intros Hempty. apply (not_elem_of_empty (C := gset nat) d).
      rewrite <- Hempty. apply elem_of_union_l, elem_of_list_to_set. by left. }
  unfold convert_braille_input, Str.upper. rewrite !chars_of_chars.
  rewrite (bind_ok _ _ _ _ _
             (convert_braille_keys _ dots [] ∅ self Hupper)).
  rewrite decide_False by exact Hchord.
  unfold dots_to_letter.
  rewrite (sorted_elements_of_pattern p dots) by done.
  rewrite Hletter. simpl. unfold ret, bind. simpl.
  by rewrite str_append_empty_r.
Qed.

(** C4: when the lowercased word is in the word set, [find_suggestions]
    returns exactly the one-element list holding the lowercased word,
    for every limit (so for every limit [n >= 1]), whatever the learned
    fixes and the other words are; nothing is raised and the object is
    unchanged. *)
Theorem exact_match_short_circuit (self : Lexicon) (w : string) (n : Z) :
  Str.lower w ∈ dictionary self →
  find_suggestions set_order w n self = (Ok [Str.lower w], self).
Proof. apply find_suggestions_known. Qed.

(** C5: when the lowercased word is not in the word set but is a key of
    the learned fixes, [find_suggestions] returns exactly the one-element
    list holding the learned fix, for every limit and whatever the
    dictionary holds. *)
Theorem learned_fix_precedence (self : Lexicon) (w fixed : string) (n : Z) :
  Str.lower w ∉ dictionary self →
  learned_fixes self !! Str.lower w = Some fixed →
  find_suggestions set_order w n self = (Ok [fixed], self).
Proof. apply find_suggestions_learned. Qed.

(** C6, amended: when no learned fix is consulted (the lowercased word is
    in the word set, or it is not a key of the learned fixes),
    [find_suggestions] returns a list every word of which is at
    Levenshtein distance at most [min(3, len(w.lower()) // 2 + 1)] from the
    lowercased word: the length is that of the lowercased word, as on
    line 152 of the source. *)
Theorem suggestions_within_distance (self : Lexicon) (w : string) (n : Z) :
  Str.lower w ∈ dictionary self ∨ learned_fixes self !! Str.lower w = None →
  ∃ l, find_suggestions set_order w n self = (Ok l, self)
       ∧ ∀ c, c ∈ l →
           levenshtein (Str.lower w) c
           ≤ 3 `min` (Str.len (Str.lower w) / 2 + 1).
Proof using set_order_enum.
  intros Hcase.
  destruct (decide (Str.lower w ∈ dictionary self)) as [Hin|Hout].
  - exists [Str.lower w]. split; [by apply find_suggestions_known|].
    intros c ->%list_elem_of_singleton.
    unfold levenshtein. rewrite lev_refl. lia.
  - destruct Hcase as [?|Hnone]; [done|].
    eexists. split.
    + apply find_suggestions_fuzzy; [done..|]. apply set_order_elem_of.
    + intros c [_ Hc]%fuzzy_suggestions_spec. exact Hc.
Qed.

(** C7 (the code departs from the claim): [learn_correction] stores the
    lowercased correction as it is, while [add_word] trims it before adding
    it to the word set.  After [learn_correction("helo", "hello ")] on the
    fresh lexicon, a reachable state, the learned fix for ["helo"] is
    ["hello "], which is not in the word set (["hello"] is). *)
Theorem learned_fix_not_in_dictionary :
  let self := snd (learn_correction "helo" "hello " initial_lexicon) in
  reachable self
  ∧ fst (learn_correction "helo" "hello " initial_lexicon) = Ok tt
  ∧ learned_fixes self !! "helo" = Some "hello "
  ∧ ("hello " ∉ dictionary self)
  ∧ "hello" ∈ dictionary self.
Proof.
  split_and!.
  - apply reach_learn_correction, reach_init.
  - vm_compute. reflexivity.
  - vm_compute. reflexivity.
  - apply (bool_decide_unpack _). vm_compute. exact I.
  - apply (bool_decide_unpack _). vm_compute. exact I.
Qed.

(** C8: for a word that is not blank once lowercased and trimmed, two calls
    of [add_word] raise nothing, leave the normalized word in the word set,
    add nothing else to the set (so at most one element), and raise its
    frequency by exactly 2, the first call raising it by 1 (to 1 when the
    word was never added). *)
Theorem add_word_twice (self : Lexicon) (w : string) :
  let word := Str.strip (Str.lower w) in
  let self1 := snd (add_word w self) in
  let self2 := snd (add_word w self1) in
  word ≠ EmptyString →
  fst (add_word w self) = Ok tt
  ∧ fst (add_word w self1) = Ok tt
  ∧ contains self2 word
  ∧ dictionary self2 = {[ word ]} ∪ dictionary self
  ∧ size (dictionary self2) ≤ size (dictionary self) + 1
  ∧ frequency_of self1 word = frequency_of self word + 1
  ∧ frequency_of self2 word = frequency_of self word + 2
  ∧ learned_fixes self2 = learned_fixes self.
Proof.
  intros word self1 self2 Hne. subst self2 self1.
  rewrite !add_word_run. simpl. fold word.
  rewrite !decide_False by done. simpl. clearbody word.
  unfold contains, frequency_of. simpl.
  rewrite !odict_get_set_eq. simpl.
  rewrite (assoc_L (∪) {[word]}), (idemp_L (∪) {[word]}).
  split_and!; try done.
  - apply elem_of_union_l. by apply elem_of_singleton.
  - rewrite size_union_alt, size_singleton.
    pose proof (subseteq_size (dictionary self ∖ {[word]}) (dictionary self)
                  (subseteq_difference_l _ _ _ (reflexivity _))). lia.
  - lia.
Qed.

(** C9: on the empty lexicon [find_suggestions] returns the empty list;
    and in every state, for every word and limit, it returns a list
    without raising. *)
Theorem suggest_never_raises :
  (∀ w n, find_suggestions set_order w n empty_lexicon
          = (Ok [], empty_lexicon))
  ∧ (∀ self w n, ∃ l, find_suggestions set_order w n self = (Ok l, self)).
Proof using set_order_enum.
  split.
  - intros w n. rewrite find_suggestions_fuzzy.
    + simpl. rewrite set_order_empty. unfold fuzzy_suggestions. simpl.
      by rewrite slice_to_nil.
    + simpl. apply not_elem_of_empty.
    + apply lookup_empty.
    + apply set_order_elem_of.
  - intros self w n.
    destruct (decide (Str.lower w ∈ dictionary self)) as [Hin|Hout].
    { eexists. by apply find_suggestions_known. }
    destruct (learned_fixes self !! Str.lower w) as [fixed|] eqn:Hfix.
    { eexists. by eapply find_suggestions_learned. }
    eexists. apply find_suggestions_fuzzy; [done..|]. apply set_order_elem_of.
Qed.

(** C10: decoding, the similarity computation, the search for suggestions,
    [autocorrect] and [get_stats] leave the three containers of the object
    exactly as they were, whatever they return, in every state and for every
    input and iteration order; [add_word] and [learn_correction] do change
    the object. *)
Theorem queries_leave_lexicon_unchanged (self : Lexicon) :
  (∀ text, snd (convert_braille_input text self) = self)
  ∧ (∀ word1 word2, snd (calculate_similarity word1 word2 self) = self)
  ∧ (∀ word n, snd (find_suggestions set_order word n self) = self)
  ∧ (∀ text n, snd (autocorrect set_order text n self) = self)
  ∧ snd (get_stats self) = self
  ∧ snd (add_word "a" self) ≠ self
  ∧ snd (learn_correction "a" "b" self) ≠ self.
Proof.
  split_and!.
  - intros text. apply read_only_convert_braille_input.
  - intros word1 word2. apply read_only_calculate_similarity.
  - intros word n. apply read_only_find_suggestions.
  - intros text n. apply read_only_autocorrect.
  - apply read_only_get_stats.
  - rewrite add_word_run.
    change (Str.strip (Str.lower "a")) with "a". simpl. intros Heq.
    apply (f_equal (λ s, frequency_of s "a")) in Heq.
    unfold frequency_of in Heq at 1. simpl in Heq.
    rewrite odict_get_set_eq in Heq. simpl in Heq. lia.
  - rewrite learn_correction_run, add_word_run.
    change (Str.strip (Str.lower (Str.lower "b"))) with "b". simpl. intros Heq.
    apply (f_equal (λ s, frequency_of s "b")) in Heq.
    unfold frequency_of in Heq at 1. simpl in Heq.
    rewrite odict_get_set_eq in Heq. simpl in Heq.
    unfold frequency_of in Heq. simpl in Heq. lia.
Qed.

End claims.

(** * Instances of the claims *)

Lemma autocorrect_helo_witness :
  (∀ s : gset string, elements s ≡ₚ elements s)
  ∧ (1 ≤ 3)%Z
  ∧ ∃ others,
      autocorrect elements "helo" 3 initial_lexicon
      = (Ok [ {| original := "hel?";
                 suggestions := "her" :: others;
                 best_match := "her" |} ],
         initial_lexicon).
Proof.
  split; [intros s; reflexivity | split; [lia|]].
  apply (autocorrect_helo elements); [intros s; reflexivity | lia].
Defined.

Lemma decode_chord_witness :
  DOT_TO_LETTER !! [1; 4] = Some "c"
  ∧ (λ c, BRAILLE_KEYS !! Str.upper_char c) <$> ["k"; "D"]%char
    ≡ₚ Some <$> [1; 4]
  ∧ convert_braille_input (Str.of_chars ["k"; "D"]%char) empty_lexicon
    = (Ok "c", empty_lexicon).
Proof.
  assert (DOT_TO_LETTER !! [1; 4] = Some "c") as Hletter
    by (vm_compute; reflexivity).
  assert ((λ c, BRAILLE_KEYS !! Str.upper_char c) <$> ["k"; "D"]%char
          ≡ₚ Some <$> [1; 4]) as Hkeys
    by (vm_compute; apply perm_swap).
  split; [exact Hletter | split; [exact Hkeys|]].
  exact (decode_chord empty_lexicon [1; 4] "c" ["k"; "D"]%char Hletter Hkeys).
Defined.

Lemma exact_match_short_circuit_witness :
  Str.lower "The" ∈ dictionary initial_lexicon
  ∧ find_suggestions elements "The" 1 initial_lexicon
    = (Ok [Str.lower "The"], initial_lexicon).
Proof.
  assert (Str.lower "The" ∈ dictionary initial_lexicon) as Hin.
  { apply (bool_decide_unpack _). vm_compute. exact I. }
  split; [exact Hin|].
  exact (exact_match_short_circuit elements initial_lexicon "The" 1 Hin).
Defined.

Lemma learned_fix_precedence_witness :
  let self := snd (learn_correction "helo" "hello" initial_lexicon) in
  (Str.lower "helo" ∉ dictionary self)
  ∧ learned_fixes self !! Str.lower "helo" = Some "hello"
  ∧ find_suggestions elements "helo" 3 self = (Ok ["hello"], self).
Proof.
  intros self.
  assert (Str.lower "helo" ∉ dictionary self) as Hout.
  { apply (bool_decide_unpack _). vm_compute. exact I. }
  assert (learned_fixes self !! Str.lower "helo" = Some "hello") as Hfix.
  { vm_compute. reflexivity. }
  split; [exact Hout | split; [exact Hfix|]].
  exact (learned_fix_precedence elements self "helo" "hello" 3 Hout Hfix).
Defined.

Lemma suggestions_within_distance_witness :
  (∀ s : gset string, elements s ≡ₚ elements s)
  ∧ (Str.lower "wrold" ∈ dictionary initial_lexicon
     ∨ learned_fixes initial_lexicon !! Str.lower "wrold" = None)
  ∧ ∃ l, find_suggestions elements "wrold" 3 initial_lexicon
         = (Ok l, initial_lexicon)
         ∧ ∀ c, c ∈ l →
             levenshtein (Str.lower "wrold") c
             ≤ 3 `min` (Str.len (Str.lower "wrold") / 2 + 1).
Proof.
  assert (∀ s : gset string, elements s ≡ₚ elements s) as Henum
    by (intros s; reflexivity).
  assert (Str.lower "wrold" ∈ dictionary initial_lexicon
          ∨ learned_fixes initial_lexicon !! Str.lower "wrold" = None) as Hcase
    by (right; vm_compute; reflexivity).
  split; [exact Henum | split; [exact Hcase|]].
  exact (suggestions_within_distance elements Henum initial_lexicon "wrold" 3
           Hcase).
Defined.

(** C6 as stated fails when a learned fix is used: after
    [learn_correction("pc", "computer")], [find_suggestions("pc", 3)]
    returns ["computer"], at distance 7 from ["pc"], above the bound 2. *)
Lemma suggestions_within_distance_counterexample :
  let self := snd (learn_correction "pc" "computer" initial_lexicon) in
  (find_suggestions elements "pc" 3 self = (Ok ["computer"], self))
  ∧ levenshtein (Str.lower "pc") "computer" = 7
  ∧ 3 `min` (Str.len "pc" / 2 + 1) = 2
  ∧ ¬ (∀ c, c ∈ ["computer"] →
         levenshtein (Str.lower "pc") c ≤ 3 `min` (Str.len "pc" / 2 + 1)).
Proof.
  intros self.
  assert (levenshtein (Str.lower "pc") "computer" = 7) as Hlev
    by (vm_compute; reflexivity).
  assert (3 `min` (Str.len "pc" / 2 + 1) = 2) as Hbound
    by (vm_compute; reflexivity).
  split_and!; [vm_compute; reflexivity | exact Hlev | exact Hbound |].
  intros Hall. specialize (Hall "computer" (list_elem_of_here _ _)).
  rewrite Hlev, Hbound in Hall. lia.
Qed.

Lemma add_word_twice_witness :
  Str.strip (Str.lower " Hello ") ≠ EmptyString
  ∧ fst (add_word " Hello " initial_lexicon) = Ok tt
  ∧ fst (add_word " Hello " (snd (add_word " Hello " initial_lexicon))) = Ok tt
  ∧ contains (snd (add_word " Hello " (snd (add_word " Hello " initial_lexicon))))
             (Str.strip (Str.lower " Hello "))
  ∧ dictionary (snd (add_word " Hello " (snd (add_word " Hello " initial_lexicon))))
    = {[ Str.strip (Str.lower " Hello ") ]} ∪ dictionary initial_lexicon
  ∧ size (dictionary
            (snd (add_word " Hello " (snd (add_word " Hello " initial_lexicon)))))
    ≤ size (dictionary initial_lexicon) + 1
  ∧ frequency_of (snd (add_word " Hello " initial_lexicon))
                 (Str.strip (Str.lower " Hello "))
    = frequency_of initial_lexicon (Str.strip (Str.lower " Hello ")) + 1
  ∧ frequency_of (snd (add_word " Hello " (snd (add_word " Hello " initial_lexicon))))
                 (Str.strip (Str.lower " Hello "))
    = frequency_of initial_lexicon (Str.strip (Str.lower " Hello ")) + 2
  ∧ learned_fixes (snd (add_word " Hello " (snd (add_word " Hello " initial_lexicon))))
    = learned_fixes initial_lexicon.
Proof.
  assert (Str.strip (Str.lower " Hello ") ≠ EmptyString) as Hne
    by (vm_compute; discriminate).
  split; [exact Hne|].
  exact (add_word_twice initial_lexicon " Hello " Hne).
Defined.

Lemma suggest_never_raises_witness :
  (∀ s : gset string, elements s ≡ₚ elements s)
  ∧ (∀ w n, find_suggestions elements w n empty_lexicon
            = (Ok [], empty_lexicon))
  ∧ (∀ self w n, ∃ l, find_suggestions elements w n self = (Ok l, self)).
Proof.
  assert (∀ s : gset string, elements s ≡ₚ elements s) as Henum
    by (intros s; reflexivity).
  split; [exact Henum|].
  exact (suggest_never_raises elements Henum).
Defined.

(** * Further properties of the code *)

(** ** [calculate_similarity] is a distance *)

Section distance_facts.
Context {A : Type} `{EqDecision A}.
Implicit Types a b c : list A.

Lemma edit_script_sym a b n : edit_script a b n → edit_script b a n.
Proof. induction 1; by constructor. Qed.

Lemma lev_sym a b : lev a b = lev b a.
Proof.
  apply Nat.le_antisymm; apply lev_least, edit_script_sym, lev_script.
Qed.

Lemma edits_trans n m a b c : edits n a b → edits m b c → edits (n + m) a c.
Proof.
  induction 1 as [a|n a a' b Hstep _ IH]; intros Hbc; [done|].
  simpl. eapply edits_S; [exact Hstep | by apply IH].
Qed.

Lemma lev_triangle a b c : lev a c ≤ lev a b + lev b c.
Proof.
  apply lev_edits. eapply edits_trans; apply edit_script_edits, lev_script.
Qed.

Lemma edits_0_eq a b : edits 0 a b → a = b.
Proof. by inversion 1. Qed.

Lemma lev_zero a b : lev a b = 0 → a = b.
Proof.
  intros Hz. apply edits_0_eq. rewrite <- Hz.
  apply edit_script_edits, lev_script.
Qed.

Lemma edit_script_length a b n :
  edit_script a b n → length a ≤ length b + n ∧ length b ≤ length a + n.
Proof. induction 1; simpl; lia. Qed.

Lemma lev_le_max a b : lev a b ≤ length a `max` length b.
Proof.
  revert b. induction a as [|x a IH]; intros b; [simpl; lia|].
  destruct b as [|y b]; [rewrite lev_nil_r; simpl; lia|].
  rewrite lev_cons. specialize (IH b). simpl.
  destruct (decide (x = y)); lia.
Qed.

End distance_facts.

Lemma chars_inj (s1 s2 : string) : Str.chars s1 = Str.chars s2 → s1 = s2.
Proof.
  intros Heq. by rewrite <- (of_chars_chars s1), <- (of_chars_chars s2), Heq.
Qed.

(** X1: the distance [calculate_similarity] returns is 0 exactly when the two
    words are equal. *)
Theorem similarity_zero_iff_equal (self : Lexicon) (word1 word2 : string) :
  fst (calculate_similarity word1 word2 self) = Ok 0 ↔ word1 = word2.
Proof.
  rewrite calculate_similarity_ok. simpl. split.
  - intros [= Hz]. by apply chars_inj, lev_zero.
  - intros ->. unfold levenshtein. by rewrite lev_refl.
Qed.

(** X2: [calculate_similarity] is symmetric in its two words. *)
Theorem similarity_symmetric (self : Lexicon) (word1 word2 : string) :
  calculate_similarity word1 word2 self = calculate_similarity word2 word1 self.
Proof.
  rewrite !calculate_similarity_ok. unfold levenshtein. by rewrite lev_sym.
Qed.

(** X3: [calculate_similarity] satisfies the triangle inequality: going
    through a third word never gives a smaller total. *)
Theorem similarity_triangle (self : Lexicon) (word1 word2 word3 : string) :
  ∃ d12 d23 d13,
    calculate_similarity word1 word2 self = (Ok d12, self)
    ∧ calculate_similarity word2 word3 self = (Ok d23, self)
    ∧ calculate_similarity word1 word3 self = (Ok d13, self)
    ∧ d13 ≤ d12 + d23.
Proof.
  exists (levenshtein word1 word2), (levenshtein word2 word3),
    (levenshtein word1 word3).
  rewrite !calculate_similarity_ok. split_and!; try done.
  apply lev_triangle.
Qed.

(** X4: the distance is at least the difference of the two lengths and at
    most the greater length, so [distance / max(len, len)] lies between 0
    and 1. *)
Theorem similarity_bounds (self : Lexicon) (word1 word2 : string) :
  ∃ d, calculate_similarity word1 word2 self = (Ok d, self)
       ∧ Str.len word1 - Str.len word2 ≤ d
       ∧ Str.len word2 - Str.len word1 ≤ d
       ∧ d ≤ Str.len word1 `max` Str.len word2.
Proof.
  exists (levenshtein word1 word2). rewrite calculate_similarity_ok.
  rewrite !str_len_chars. unfold levenshtein.
  pose proof (edit_script_length _ _ _
                (lev_script (Str.chars word1) (Str.chars word2))) as [H1 H2].
  pose proof (lev_le_max (Str.chars word1) (Str.chars word2)).
  split_and!; [done | lia..].
Qed.

(** ** Decoding *)

Lemma flush_ok (result : list string) (dots : gset nat) (self : Lexicon) :
  (if decide (dots = ∅) then ret (result, dots)
   else let! letter := dots_to_letter dots in ret (result ++ [letter], ∅)) self
  = (Ok (result ++ flush_chord dots, ∅), self).
Proof.
  unfold flush_chord. destruct (decide (dots = ∅)) as [->|Hne].
  - unfold ret. by rewrite app_nil_r.
  - reflexivity.
Qed.

Lemma convert_braille_step_ok (c : ascii) (result : list string)
    (dots : gset nat) (self : Lexicon) :
  convert_braille_step c (result, dots) self
  = (Ok (result ++ (decode_char c dots).1, (decode_char c dots).2), self).
Proof.
  unfold convert_braille_step, decode_char.
  destruct (decide (c = " "%char)) as [->|Hc].
  - rewrite (bind_ok _ _ _ _ _ (flush_ok result dots self)).
    unfold ret. cbn [fst snd]. by rewrite app_assoc.
  - destruct (BRAILLE_KEYS !! c) as [dot|].
    + unfold ret. cbn [fst snd]. by rewrite app_nil_r.
    + rewrite (bind_ok _ _ _ _ _ (flush_ok result dots self)).
      unfold ret. cbn [fst snd]. by rewrite app_assoc.
Qed.

Lemma convert_braille_loop_ok (cs : list ascii) (result : list string)
    (dots : gset nat) (self : Lexicon) :
  for_each cs convert_braille_step (result, dots) self
  = (Ok (result ++ (decode_chars cs dots).1, (decode_chars cs dots).2), self).
Proof.
  revert result dots. induction cs as [|c cs IH]; intros result dots;
    cbn [for_each decode_chars].
  - unfold ret. cbn [fst snd]. by rewrite app_nil_r.
  - rewrite (bind_ok _ _ _ _ _ (convert_braille_step_ok c result dots self)).
    rewrite IH. destruct (decode_char c dots) as [out dots1]. cbn [fst snd].
    destruct (decode_chars cs dots1) as [rest dots2]. cbn [fst snd].
    by rewrite app_assoc.
Qed.

Lemma flush_final_ok (result : list string) (dots : gset nat) (self : Lexicon) :
  (if decide (dots = ∅) then ret result
   else let! letter := dots_to_letter dots in ret (result ++ [letter])) self
  = (Ok (result ++ flush_chord dots), self).
Proof.
  unfold flush_chord. destruct (decide (dots = ∅)) as [->|Hne].
  - unfold ret. by rewrite app_nil_r.
  - reflexivity.
Qed.

Lemma convert_braille_input_ok (text : string) (self : Lexicon) :
  convert_braille_input text self
  = (Ok (decoded (Str.chars (Str.upper text))), self).
Proof.
  unfold convert_braille_input, decoded.
  rewrite (bind_ok _ _ _ _ _
             (convert_braille_loop_ok (Str.chars (Str.upper text)) [] ∅ self)).
  destruct (decode_chars (Str.chars (Str.upper text)) ∅) as [result dots].
  cbn [fst snd app].
  by rewrite (bind_ok _ _ _ _ _ (flush_final_ok result dots self)).
Qed.

Lemma decode_chars_app (cs1 cs2 : list ascii) (dots : gset nat) :
  decode_chars (cs1 ++ cs2) dots
  = ((decode_chars cs1 dots).1
       ++ (decode_chars cs2 (decode_chars cs1 dots).2).1,
     (decode_chars cs2 (decode_chars cs1 dots).2).2).
Proof.
  revert dots. induction cs1 as [|c cs1 IH]; intros dots;
    cbn [app decode_chars fst snd].
  - by destruct (decode_chars cs2 dots).
  - destruct (decode_char c dots) as [out dots1]. rewrite IH.
    cbn [fst snd]. destruct (decode_chars cs1 dots1) as [r1 d1]. cbn [fst snd].
    destruct (decode_chars cs2 d1) as [r2 d2]. cbn [fst snd].
    by rewrite app_assoc.
Qed.

Lemma str_append_assoc (s1 s2 s3 : string) :
  String.append s1 (String.append s2 s3)
  = String.append (String.append s1 s2) s3.
Proof.
  induction s1 as [|c s1 IH]; [done|].
  change (String c (String.append s1 (String.append s2 s3))
          = String c (String.append (String.append s1 s2) s3)).
  by rewrite IH.
Qed.

Lemma join_app (l1 l2 : list string) :
  Str.join (l1 ++ l2) = String.append (Str.join l1) (Str.join l2).
Proof.
  induction l1 as [|s l1 IH]; [done|].
  change (String.append s (Str.join (l1 ++ l2))
          = String.append (String.append s (Str.join l1)) (Str.join l2)).
  by rewrite IH, str_append_assoc.
Qed.

Lemma chars_append (s1 s2 : string) :
  Str.chars (String.append s1 s2) = Str.chars s1 ++ Str.chars s2.
Proof.
  induction s1 as [|c s1 IH]; [done|].
  change (c :: Str.chars (String.append s1 s2)
          = c :: (Str.chars s1 ++ Str.chars s2)).
  by rewrite IH.
Qed.

Lemma lower_upper_char (c : ascii) :
  Str.lower_char (Str.upper_char c) = Str.lower_char c.
Proof. destruct c as [[] [] [] [] [] [] [] []]; reflexivity. Qed.

Lemma join_of_chars (cs : list ascii) :
  Str.join (Str.of_char <$> cs) = Str.of_chars cs.
Proof.
  induction cs as [|c cs IH]; [done|].
  change (String c (Str.join (Str.of_char <$> cs)) = String c (Str.of_chars cs)).
  by rewrite IH.
Qed.

(** A character that is no chord key is copied, lowercased, after the
    pending chord. *)
Lemma decode_char_plain (c : ascii) (dots : gset nat) :
  BRAILLE_KEYS !! c = None →
  decode_char c dots
  = (flush_chord dots ++ [Str.of_char (Str.lower_char c)], ∅).
Proof.
  intros Hc. unfold decode_char. rewrite Hc.
  by destruct (decide (c = " "%char)) as [->|_].
Qed.

Lemma decode_chars_plain (cs : list ascii) :
  Forall (λ c, BRAILLE_KEYS !! c = None) cs →
  decode_chars cs ∅ = (Str.of_char <$> (Str.lower_char <$> cs), ∅).
Proof.
  induction 1 as [|c cs Hc _ IH]; [done|].
  cbn [decode_chars]. rewrite (decode_char_plain c ∅ Hc), IH.
  unfold flush_chord. by rewrite decide_True.
Qed.

Lemma decoded_separator (cs1 cs2 : list ascii) (sep : ascii) :
  BRAILLE_KEYS !! sep = None →
  decoded (cs1 ++ sep :: cs2)
  = String.append (decoded cs1)
      (String (Str.lower_char sep) (decoded cs2)).
Proof.
  intros Hsep. unfold decoded.
  rewrite decode_chars_app. cbn [decode_chars].
  destruct (decode_chars cs1 ∅) as [r1 d1]. cbn [fst snd].
  rewrite (decode_char_plain sep d1 Hsep).
  destruct (decode_chars cs2 ∅) as [r2 d2]. cbn [fst snd].
  rewrite <- !app_assoc, (app_assoc r1), !join_app. done.
Qed.

(** X5: an ASCII text with none of the letters d, w, q, k, o, p, in either
    case, is returned by [convert_braille_input] as it is, lowercased. *)
Theorem decode_plain_text (self : Lexicon) (text : string) :
  is_ascii text →
  Forall (λ c, BRAILLE_KEYS !! Str.upper_char c = None) (Str.chars text) →
  convert_braille_input text self = (Ok (Str.lower text), self).
Proof.
  intros _ Hplain. rewrite convert_braille_input_ok. do 2 f_equal.
  unfold decoded, Str.upper. rewrite chars_of_chars.
  rewrite decode_chars_plain by (by apply Forall_fmap).
  unfold flush_chord. rewrite decide_True by done.
  rewrite app_nil_r, join_of_chars. unfold Str.lower. f_equal.
  rewrite <- list_fmap_compose. apply list_fmap_ext.
  intros _ c _. apply lower_upper_char.
Qed.

Lemma decode_plain_text_witness :
  is_ascii "The Cat, 3 Times!"
  ∧ Forall (λ c, BRAILLE_KEYS !! Str.upper_char c = None)
           (Str.chars "The Cat, 3 Times!")
  ∧ convert_braille_input "The Cat, 3 Times!" empty_lexicon
    = (Ok (Str.lower "The Cat, 3 Times!"), empty_lexicon).
Proof.
  assert (Forall (λ c, BRAILLE_KEYS !! Str.upper_char c = None)
                 (Str.chars "The Cat, 3 Times!")) as Hplain.
  { apply (bool_decide_unpack _). vm_compute. exact I. }
  assert (is_ascii "The Cat, 3 Times!") as Hascii.
  { apply (bool_decide_unpack _). vm_compute. exact I. }
  split; [exact Hascii | split; [exact Hplain|]].
  exact (decode_plain_text empty_lexicon "The Cat, 3 Times!" Hascii Hplain).
Defined.

(** X6: decoding works piece by piece: around an ASCII character that is no
    chord key (a space, a digit, a comma, any other letter) an ASCII text is
    decoded as its left part, then the lowercased character, then its
    right part. *)
Theorem decode_around_separator (self : Lexicon) (left right : string)
    (sep : ascii) :
  is_ascii left → is_ascii right → Str.code sep < 128 →
  BRAILLE_KEYS !! Str.upper_char sep = None →
  ∃ dl dr,
    convert_braille_input left self = (Ok dl, self)
    ∧ convert_braille_input right self = (Ok dr, self)
    ∧ convert_braille_input (String.append left (String sep right)) self
      = (Ok (String.append dl (String (Str.lower_char sep) dr)), self).
Proof.
  intros _ _ _ Hsep. eexists _, _. rewrite !convert_braille_input_ok.
  split_and!; [done..|]. do 2 f_equal.
  unfold Str.upper. rewrite !chars_of_chars, chars_append, fmap_app.
  change (Str.chars (String sep right)) with (sep :: Str.chars right).
  rewrite fmap_cons, (decoded_separator _ _ _ Hsep).
  by rewrite lower_upper_char.
Qed.

Lemma decode_around_separator_witness :
  is_ascii "DK" ∧ is_ascii "dw" ∧ Str.code " " < 128
  ∧ BRAILLE_KEYS !! Str.upper_char " " = None
  ∧ ∃ dl dr,
      convert_braille_input "DK" empty_lexicon = (Ok dl, empty_lexicon)
      ∧ convert_braille_input "dw" empty_lexicon = (Ok dr, empty_lexicon)
      ∧ convert_braille_input (String.append "DK" (String " " "dw"))
                              empty_lexicon
        = (Ok (String.append dl (String (Str.lower_char " ") dr)),
           empty_lexicon).
Proof.
  assert (BRAILLE_KEYS !! Str.upper_char " " = None) as Hsep
    by (vm_compute; reflexivity).
  assert (is_ascii "DK") as Hl
    by (apply (bool_decide_unpack _); vm_compute; exact I).
  assert (is_ascii "dw") as Hr
    by (apply (bool_decide_unpack _); vm_compute; exact I).
  assert (Str.code " " < 128) as Hc by (vm_compute; lia).
  split; [exact Hl | split; [exact Hr | split; [exact Hc
    | split; [exact Hsep|]]]].
  exact (decode_around_separator empty_lexicon "DK" "dw" " " Hl Hr Hc Hsep).
Defined.

(** ** Decoding one chord, pressed in any way *)

Lemma keys_dots (f : ascii → option nat) (keys : list ascii) :
  Forall (λ c, is_Some (f c)) keys → ∃ dots, f <$> keys = Some <$> dots.
Proof.
  induction 1 as [|c keys [d Hd] _ [dots IH]]; [by exists []|].
  exists (d :: dots). by rewrite !fmap_cons, Hd, IH.
Qed.

Lemma keys_dots_elem_of (f : ascii → option nat) (keys : list ascii)
    (dots : list nat) (d : nat) :
  f <$> keys = Some <$> dots →
  d ∈ dots ↔ ∃ c, c ∈ keys ∧ f c = Some d.
Proof.
  intros Heq. split.
  - intros Hd. assert (Some d ∈ f <$> keys) as Hin.
    { rewrite Heq. by apply list_elem_of_fmap_2. }
    apply list_elem_of_fmap in Hin as (c & Hc & Hin). by exists c.
  - intros (c & Hc & Hfc). assert (Some d ∈ Some <$> dots) as Hin.
    { rewrite <- Heq, <- Hfc. by apply list_elem_of_fmap_2. }
    apply list_elem_of_fmap in Hin as (d' & [= ->] & Hin). done.
Qed.

(** A text made of chord keys only is decoded to the letter of the set of
    its dots. *)
Lemma convert_braille_chord (keys : list ascii) (dots : list nat)
    (self : Lexicon) :
  (λ c, BRAILLE_KEYS !! Str.upper_char c) <$> keys = Some <$> dots →
  dots ≠ [] →
  convert_braille_input (Str.of_chars keys) self
  = (Ok (chord_letter (list_to_set dots)), self).
Proof.
  intros Hdots Hne.
  assert ((BRAILLE_KEYS !!.) <$> (Str.upper_char <$> keys) = Some <$> dots)
    as Hupper by (rewrite <- list_fmap_compose; exact Hdots).
  assert (list_to_set dots ∪ ∅ ≠ (∅ : gset nat)) as Hchord.
  { destruct dots as [|d dots]; [done|].
    intros Hempty. apply (not_elem_of_empty (C := gset nat) d).
    rewrite <- Hempty. apply elem_of_union_l, elem_of_list_to_set. by left. }
  unfold convert_braille_input, Str.upper. rewrite !chars_of_chars.
  rewrite (bind_ok _ _ _ _ _
             (convert_braille_keys _ dots [] ∅ self Hupper)).
  rewrite decide_False by exact Hchord.
  unfold dots_to_letter, chord_letter, bind, ret. cbn [app Str.join foldr].
  by rewrite str_append_empty_r, union_empty_r_L.
Qed.

Lemma chord_letter_pattern (p : list nat) (letter : string) (dots : gset nat) :
  DOT_TO_LETTER !! p = Some letter →
  (∀ d, d ∈ p ↔ d ∈ dots) →
  chord_letter dots = letter.
Proof.
  intros Hletter Hsame.
  destruct (DOT_TO_LETTER_keys p letter Hletter) as (Hsorted & Hnodup & _).
  assert (dots = list_to_set p) as ->.
  { apply set_eq. intros d. by rewrite elem_of_list_to_set, Hsame. }
  unfold chord_letter.
  replace (merge_sort (≤) (elements (list_to_set p : gset nat))) with p;
    [by rewrite Hletter|].
  symmetry. apply (Sorted_unique (≤)); [apply Sorted_merge_sort; apply _|done|].
  by rewrite merge_sort_Permutation, elements_list_to_set.
Qed.

Lemma chord_letter_unknown (dots : gset nat) :
  (∀ p letter, DOT_TO_LETTER !! p = Some letter → ¬ ∀ d, d ∈ p ↔ d ∈ dots) →
  chord_letter dots = "?".
Proof.
  intros Hno. unfold chord_letter.
  destruct (DOT_TO_LETTER !! merge_sort (≤) (elements dots)) as [letter|] eqn:Hl;
    [|done].
  destruct (Hno _ _ Hl). intros d.
  by rewrite merge_sort_Permutation, elem_of_elements.
Qed.

(** X7: a text made of chord keys only, in any order and case and with
    keys repeated at will, whose dots are exactly the dots of a pattern of
    the letter table, is decoded to the letter of that pattern. *)
Theorem decode_chord_as_set (self : Lexicon) (p : list nat) (letter : string)
    (keys : list ascii) :
  DOT_TO_LETTER !! p = Some letter →
  Forall (λ c, is_Some (BRAILLE_KEYS !! Str.upper_char c)) keys →
  (∀ d, d ∈ p ↔ ∃ c, c ∈ keys ∧ BRAILLE_KEYS !! Str.upper_char c = Some d) →
  convert_braille_input (Str.of_chars keys) self = (Ok letter, self).
Proof.
  intros Hletter Hkeys Hsame.
  destruct (keys_dots _ keys Hkeys) as [dots Hdots].
  destruct (DOT_TO_LETTER_keys p letter Hletter) as (_ & _ & Hne).
  rewrite (convert_braille_chord keys dots self Hdots).
  - do 2 f_equal. apply (chord_letter_pattern p); [done|].
    intros d. rewrite elem_of_list_to_set, Hsame.
    symmetry. by apply keys_dots_elem_of.
  - intros ->. destruct p as [|d p]; [done|].
    assert (d ∈ (@nil nat)) as Hd; [|by apply not_elem_of_nil in Hd].
    apply (keys_dots_elem_of _ keys [] d Hdots), Hsame. by left.
Qed.

Lemma decode_chord_as_set_witness :
  DOT_TO_LETTER !! [1; 4] = Some "c"
  ∧ Forall (λ c, is_Some (BRAILLE_KEYS !! Str.upper_char c))
           ["k"; "D"; "K"; "d"]%char
  ∧ (∀ d, d ∈ [1; 4] ↔
       ∃ c, c ∈ ["k"; "D"; "K"; "d"]%char
            ∧ BRAILLE_KEYS !! Str.upper_char c = Some d)
  ∧ convert_braille_input (Str.of_chars ["k"; "D"; "K"; "d"]%char)
                          empty_lexicon
    = (Ok "c", empty_lexicon).
Proof.
  assert (DOT_TO_LETTER !! [1; 4] = Some "c") as Hletter
    by (vm_compute; reflexivity).
  assert (Forall (λ c, is_Some (BRAILLE_KEYS !! Str.upper_char c))
                 ["k"; "D"; "K"; "d"]%char) as Hkeys.
  { repeat constructor; vm_compute; eauto. }
  assert (∀ d, d ∈ [1; 4] ↔
            ∃ c, c ∈ ["k"; "D"; "K"; "d"]%char
                 ∧ BRAILLE_KEYS !! Str.upper_char c = Some d) as Hsame.
  { intros d. split.
    - intros Hd. apply list_elem_of_In in Hd.
      destruct Hd as [<-|[<-|[]]].
      + exists "D"%char. split; [|vm_compute; reflexivity].
        apply list_elem_of_In. simpl. tauto.
      + exists "k"%char. split; [|vm_compute; reflexivity].
        apply list_elem_of_In. simpl. tauto.
    - intros (c & Hc & Hd). apply list_elem_of_In in Hc.
      apply list_elem_of_In.
      destruct Hc as [<-|[<-|[<-|[<-|[]]]]]; vm_compute in Hd;
        injection Hd as <-; simpl; tauto. }
  split; [exact Hletter | split; [exact Hkeys | split; [exact Hsame|]]].
  exact (decode_chord_as_set empty_lexicon [1; 4] "c" ["k"; "D"; "K"; "d"]%char
           Hletter Hkeys Hsame).
Defined.

(** X8: a non-empty text made of chord keys only, whose dots are the dots
    of no pattern of the letter table, is decoded to the placeholder
    ["?"]. *)
Theorem decode_unknown_chord (self : Lexicon) (keys : list ascii) :
  keys ≠ [] →
  Forall (λ c, is_Some (BRAILLE_KEYS !! Str.upper_char c)) keys →
  (∀ p letter, DOT_TO_LETTER !! p = Some letter →
     ¬ ∀ d, d ∈ p ↔ ∃ c, c ∈ keys ∧ BRAILLE_KEYS !! Str.upper_char c = Some d) →
  convert_braille_input (Str.of_chars keys) self = (Ok "?", self).
Proof.
  intros Hne Hkeys Hno.
  destruct (keys_dots _ keys Hkeys) as [dots Hdots].
  rewrite (convert_braille_chord keys dots self Hdots).
  - do 2 f_equal. apply chord_letter_unknown.
    intros p letter Hletter Hsame. apply (Hno p letter Hletter).
    intros d. rewrite Hsame, elem_of_list_to_set.
    by apply keys_dots_elem_of.
  - intros ->. destruct keys; [done | discriminate].
Qed.

Lemma decode_unknown_chord_witness :
  ["O"]%char ≠ []
  ∧ Forall (λ c, is_Some (BRAILLE_KEYS !! Str.upper_char c)) ["O"]%char
  ∧ (∀ p letter, DOT_TO_LETTER !! p = Some letter →
       ¬ ∀ d, d ∈ p ↔
           ∃ c, c ∈ ["O"]%char ∧ BRAILLE_KEYS !! Str.upper_char c = Some d)
  ∧ convert_braille_input (Str.of_chars ["O"]%char) empty_lexicon
    = (Ok "?", empty_lexicon).
Proof.
  assert (["O"]%char ≠ []) as Hne by discriminate.
  assert (Forall (λ c, is_Some (BRAILLE_KEYS !! Str.upper_char c)) ["O"]%char)
    as Hkeys by (repeat constructor; vm_compute; eauto).
  assert (∀ p letter, DOT_TO_LETTER !! p = Some letter →
            ¬ ∀ d, d ∈ p ↔
                ∃ c, c ∈ ["O"]%char ∧ BRAILLE_KEYS !! Str.upper_char c = Some d)
    as Hno.
  { intros p letter Hletter Hsame.
    assert (1 ∈ p ∨ 2 ∈ p) as Hlow.
    { apply elem_of_list_to_map_2 in Hletter.
      assert (Forall (λ e, 1 ∈ e.1 ∨ 2 ∈ e.1) DOT_TO_LETTER_items) as Hall
        by (apply (bool_decide_unpack _); vm_compute; exact I).
      rewrite Forall_forall in Hall. apply (Hall _ Hletter). }
    destruct Hlow as [Hd|Hd]; apply Hsame in Hd as (c & Hc & Hd);
      apply list_elem_of_singleton in Hc as ->; vm_compute in Hd;
      discriminate. }
  split; [exact Hne | split; [exact Hkeys | split; [exact Hno|]]].
  exact (decode_unknown_chord empty_lexicon ["O"]%char Hne Hkeys Hno).
Defined.

(** ** The length of the decoded text *)

Lemma len_append (s1 s2 : string) :
  Str.len (String.append s1 s2) = Str.len s1 + Str.len s2.
Proof. by rewrite !str_len_chars, chars_append, length_app. Qed.

Lemma len_join_app (l1 l2 : list string) :
  Str.len (Str.join (l1 ++ l2))
  = Str.len (Str.join l1) + Str.len (Str.join l2).
Proof. by rewrite join_app, len_append. Qed.

Lemma len_join_singleton (s : string) : Str.len (Str.join [s]) = Str.len s.
Proof.
  change (Str.join [s]) with (String.append s EmptyString).
  by rewrite str_append_empty_r.
Qed.

Lemma chord_letter_len (dots : gset nat) : Str.len (chord_letter dots) = 1.
Proof.
  unfold chord_letter.
  destruct (DOT_TO_LETTER !! merge_sort (≤) (elements dots)) as [letter|] eqn:Hl;
    [|done].
  apply elem_of_list_to_map_2 in Hl.
  assert (Forall (λ e, Str.len e.2 = 1) DOT_TO_LETTER_items) as Hall
    by (apply (bool_decide_unpack _); vm_compute; exact I).
  rewrite Forall_forall in Hall. apply (Hall _ Hl).
Qed.

Lemma len_flush_chord (dots : gset nat) :
  Str.len (Str.join (flush_chord dots)) = if decide (dots = ∅) then 0 else 1.
Proof.
  unfold flush_chord. destruct (decide (dots = ∅)); [done|].
  by rewrite len_join_singleton, chord_letter_len.
Qed.

Lemma len_flush_empty : Str.len (Str.join (flush_chord ∅)) = 0.
Proof. unfold flush_chord. by rewrite decide_True. Qed.

Lemma decode_char_len (c : ascii) (dots : gset nat) :
  Str.len (Str.join (decode_char c dots).1)
  + Str.len (Str.join (flush_chord (decode_char c dots).2))
  ≤ 1 + Str.len (Str.join (flush_chord dots)).
Proof.
  unfold decode_char. destruct (decide (c = " "%char)) as [->|Hc].
  - cbn [fst snd]. rewrite len_join_app, len_flush_empty, len_join_singleton.
    change (Str.len " ") with 1. lia.
  - destruct (BRAILLE_KEYS !! c) as [dot|]; cbn [fst snd].
    + rewrite !len_flush_chord. change (Str.len (Str.join [])) with 0.
      destruct (decide ({[dot]} ∪ dots = ∅)); lia.
    + rewrite len_join_app, len_flush_empty, len_join_singleton.
      change (Str.len (Str.lower (Str.of_char c))) with 1. lia.
Qed.

Lemma decode_chars_len (cs : list ascii) (dots : gset nat) :
  Str.len (Str.join (decode_chars cs dots).1)
  + Str.len (Str.join (flush_chord (decode_chars cs dots).2))
  ≤ length cs + Str.len (Str.join (flush_chord dots)).
Proof.
  revert dots. induction cs as [|c cs IH]; intros dots; cbn [decode_chars].
  - cbn [fst snd length]. change (Str.len (Str.join [])) with 0. lia.
  - pose proof (decode_char_len c dots) as Hc.
    destruct (decode_char c dots) as [out dots1]. cbn [fst snd] in Hc.
    specialize (IH dots1).
    destruct (decode_chars cs dots1) as [rest dots2]. cbn [fst snd] in IH |- *.
    rewrite len_join_app. cbn [length]. lia.
Qed.

(** X9: for an ASCII text, [convert_braille_input] returns a text that is
    never longer than its input. *)
Theorem decode_never_lengthens (self : Lexicon) (text : string) :
  is_ascii text →
  ∃ out, convert_braille_input text self = (Ok out, self)
         ∧ Str.len out ≤ Str.len text.
Proof.
  intros _. eexists. split; [apply convert_braille_input_ok|].
  unfold decoded.
  pose proof (decode_chars_len (Str.chars (Str.upper text)) ∅) as Hlen.
  destruct (decode_chars (Str.chars (Str.upper text)) ∅) as [result dots].
  cbn [fst snd] in Hlen. rewrite len_join_app.
  rewrite len_flush_empty, <- str_len_chars, len_upper in Hlen. lia.
Qed.

Lemma decode_never_lengthens_witness :
  is_ascii "DK dw, ok"
  ∧ ∃ out, convert_braille_input "DK dw, ok" empty_lexicon
           = (Ok out, empty_lexicon)
           ∧ Str.len out ≤ Str.len "DK dw, ok".
Proof.
  assert (is_ascii "DK dw, ok") as Hascii
    by (apply (bool_decide_unpack _); vm_compute; exact I).
  split; [exact Hascii|].
  exact (decode_never_lengthens empty_lexicon "DK dw, ok" Hascii).
Defined.

(** ** Every letter can be typed *)

(** X10: for every lowercase letter there is a text of chord keys that
    [convert_braille_input] decodes to exactly that letter. *)
Theorem every_letter_has_a_chord (self : Lexicon) (c : ascii) :
  Str.is_lower_char c = true →
  ∃ keys, chord_for (Str.of_char c) = Some keys
          ∧ convert_braille_input keys self = (Ok (Str.of_char c), self).
Proof.
  destruct c as [[] [] [] [] [] [] [] []]; intros Hc;
    first [ discriminate Hc
          | eexists; split; [vm_compute; reflexivity|];
            vm_compute; reflexivity ].
Qed.

Lemma every_letter_has_a_chord_witness :
  Str.is_lower_char "w" = true
  ∧ ∃ keys, chord_for (Str.of_char "w") = Some keys
            ∧ convert_braille_input keys empty_lexicon
              = (Ok (Str.of_char "w"), empty_lexicon).
Proof.
  assert (Str.is_lower_char "w" = true) as Hc by reflexivity.
  split; [exact Hc|].
  exact (every_letter_has_a_chord empty_lexicon "w"%char Hc).
Defined.

(** ** The list of suggestions *)

Section sorted_facts.
Context {A : Type} (key_le : A → A → bool).
Hypothesis key_le_total : ∀ x y, key_le x y = true ∨ key_le y x = true.
Hypothesis key_le_trans :
  ∀ x y z, key_le x y = true → key_le y z = true → key_le x z = true.

Lemma insert_desc_sorted (x : A) (l : list A) :
  StronglySorted (λ a b, key_le b a = true) l →
  StronglySorted (λ a b, key_le b a = true) (insert_desc key_le x l).
Proof using key_le_total key_le_trans.
  induction 1 as [|y l Hl IH Hy]; simpl.
  { apply SSorted_cons; constructor. }
  destruct (key_le y x) eqn:Hyx.
  - constructor; [by constructor|]. constructor; [done|].
    eapply Forall_impl; [exact Hy|]. intros z Hz. simpl in Hz.
    exact (key_le_trans _ _ _ Hz Hyx).
  - constructor; [exact IH|]. rewrite insert_desc_perm.
    constructor; [|exact Hy].
    destruct (key_le_total x y) as [?|Hxy]; [done | congruence].
Qed.

Lemma sort_desc_sorted (l : list A) :
  StronglySorted (λ a b, key_le b a = true) (sort_desc key_le l).
Proof using key_le_total key_le_trans.
  induction l as [|x l IH]; simpl; [constructor|].
  by apply insert_desc_sorted.
Qed.

End sorted_facts.

Lemma strongly_sorted_lookup {A} (R : A → A → Prop) (l : list A) (i j : nat)
    (x y : A) :
  StronglySorted R l → i < j → l !! i = Some x → l !! j = Some y → R x y.
Proof.
  intros Hs. revert i j. induction Hs as [|z l _ IH Hz]; intros i j Hij Hi Hj.
  - done.
  - destruct j as [|j]; [lia|]. destruct i as [|i].
    + injection Hi as <-. rewrite Forall_forall in Hz.
      apply Hz. eapply list_elem_of_lookup_2. exact Hj.
    + apply (IH i j); [lia | done..].
Qed.

Lemma slice_to_take {A} (n : Z) (l : list A) : ∃ k, slice_to n l = take k l.
Proof. unfold slice_to. destruct (n <? 0)%Z; eauto. Qed.

Lemma length_slice_to {A} (n : Z) (l : list A) :
  (0 ≤ n)%Z → length (slice_to n l) ≤ Z.to_nat n.
Proof.
  intros Hn. unfold slice_to. destruct (Z.ltb_spec n 0) as [?|_]; [lia|].
  rewrite length_take. lia.
Qed.

Lemma score_le_total (x y : string * Q * nat) :
  score_le x y = true ∨ score_le y x = true.
Proof.
  unfold score_le. destruct (Qlt_le_dec x.1.2 y.1.2) as [Hlt|Hle].
  - left. by apply Qle_bool_iff, Qlt_le_weak.
  - right. by apply Qle_bool_iff.
Qed.

Lemma score_le_trans (x y z : string * Q * nat) :
  score_le x y = true → score_le y z = true → score_le x z = true.
Proof.
  unfold score_le. rewrite !Qle_bool_iff. apply Qle_trans.
Qed.

Lemma candidate_score (self : Lexicon) (word : string) (max_distance : nat)
    (dict_word : string) (c : string * Q * nat) :
  candidate self word max_distance dict_word = Some c →
  c.1.2 = total_score self word c.1.1 (levenshtein word c.1.1).
Proof. unfold candidate. case_decide; [|done]. by intros [= <-]. Qed.

Lemma candidate_elem_of (self : Lexicon) (word : string) (max_distance : nat)
    (dict_words : list string) (c : string * Q * nat) :
  c ∈ omap (candidate self word max_distance) dict_words →
  c.1.1 ∈ dict_words
  ∧ levenshtein word c.1.1 ≤ max_distance
  ∧ c.1.2 = total_score self word c.1.1 (levenshtein word c.1.1).
Proof.
  intros (w & Hw & Hc)%list_elem_of_omap.
  unfold candidate in Hc. case_decide; [|done]. injection Hc as <-. done.
Qed.

Lemma candidate_of_word (self : Lexicon) (word : string) (max_distance : nat)
    (dict_words : list string) (w : string) :
  w ∈ dict_words → levenshtein word w ≤ max_distance →
  ∃ c, c ∈ omap (candidate self word max_distance) dict_words ∧ c.1.1 = w.
Proof.
  intros Hw Hle. eexists. split.
  - apply list_elem_of_omap. exists w. split; [exact Hw|].
    unfold candidate. by rewrite decide_True.
  - done.
Qed.

Lemma omap_cons_eq {A B} (f : A → option B) (x : A) (l : list A) :
  omap f (x :: l)
  = match f x with Some y => y :: omap f l | None => omap f l end.
Proof. reflexivity. Qed.

Lemma candidates_words (self : Lexicon) (word : string) (max_distance : nat)
    (dict_words : list string) :
  (λ s, s.1.1) <$> omap (candidate self word max_distance) dict_words
  = filter (λ w, levenshtein word w ≤ max_distance) dict_words.
Proof.
  induction dict_words as [|w ws IH]; [done|].
  rewrite filter_cons, omap_cons_eq. unfold candidate at 1.
  destruct (decide (levenshtein word w ≤ max_distance));
    [rewrite fmap_cons|]; by rewrite IH.
Qed.

Lemma fuzzy_suggestions_NoDup (self : Lexicon) (word : string) (n : Z)
    (dict_words : list string) :
  NoDup dict_words → NoDup (fuzzy_suggestions self word n dict_words).
Proof.
  intros Hnodup. unfold fuzzy_suggestions.
  destruct (slice_to_take n
              (sort_desc score_le
                 (omap (candidate self word (3 `min` (Str.len word / 2 + 1)))
                       dict_words))) as [k ->].
  rewrite fmap_take. eapply sublist_NoDup; [|apply sublist_take].
  rewrite sort_desc_perm, candidates_words. by apply NoDup_filter.
Qed.

Lemma fuzzy_suggestions_sorted (self : Lexicon) (word : string) (n : Z)
    (dict_words : list string) (i j : nat) (wi wj : string) :
  i ≤ j →
  fuzzy_suggestions self word n dict_words !! i = Some wi →
  fuzzy_suggestions self word n dict_words !! j = Some wj →
  (total_score self word wj (levenshtein word wj)
   <= total_score self word wi (levenshtein word wi))%Q.
Proof.
  unfold fuzzy_suggestions. intros Hij Hi Hj.
  destruct (decide (i = j)) as [->|Hne].
  { rewrite Hi in Hj. injection Hj as ->. apply Qle_refl. }
  set (cs := omap (candidate self word (3 `min` (Str.len word / 2 + 1)))
                  dict_words) in *.
  destruct (slice_to_take n (sort_desc score_le cs)) as [k Hk].
  rewrite Hk in Hi, Hj.
  apply list_lookup_fmap_Some in Hi as (ci & -> & Hci).
  apply list_lookup_fmap_Some in Hj as (cj & -> & Hcj).
  apply lookup_take_Some in Hci as [Hci _].
  apply lookup_take_Some in Hcj as [Hcj _].
  pose proof (strongly_sorted_lookup _ _ i j ci cj
                (sort_desc_sorted score_le score_le_total score_le_trans cs)
                ltac:(lia) Hci Hcj) as Hle.
  apply Qle_bool_iff in Hle.
  assert (ci ∈ cs) as Hi'.
  { rewrite <- (sort_desc_perm score_le cs). by eapply list_elem_of_lookup_2. }
  assert (cj ∈ cs) as Hj'.
  { rewrite <- (sort_desc_perm score_le cs). by eapply list_elem_of_lookup_2. }
  apply candidate_elem_of in Hi' as (_ & _ & <-).
  apply candidate_elem_of in Hj' as (_ & _ & <-). exact Hle.
Qed.

(** The first suggestion scores at least as much as any admissible word. *)
Lemma fuzzy_suggestions_best (self : Lexicon) (word : string) (n : Z)
    (dict_words : list string) (w : string) :
  (1 ≤ n)%Z → w ∈ dict_words →
  levenshtein word w ≤ 3 `min` (Str.len word / 2 + 1) →
  ∃ best rest,
    fuzzy_suggestions self word n dict_words = best :: rest
    ∧ (total_score self word w (levenshtein word w)
       <= total_score self word best (levenshtein word best))%Q.
Proof.
  intros Hn Hw Hle. unfold fuzzy_suggestions.
  set (cs := omap (candidate self word (3 `min` (Str.len word / 2 + 1)))
                  dict_words).
  destruct (candidate_of_word self word _ dict_words w Hw Hle) as (c & Hc & Hcw).
  fold cs in Hc.
  pose proof (sort_desc_sorted score_le score_le_total score_le_trans cs)
    as Hsorted.
  pose proof (sort_desc_perm score_le cs) as Hperm.
  destruct (sort_desc score_le cs) as [|b rest] eqn:Hsort.
  { rewrite <- Hperm in Hc. by apply not_elem_of_nil in Hc. }
  rewrite slice_to_cons by done. rewrite fmap_cons. eexists _, _.
  split; [done|].
  assert (b ∈ cs) as Hb by (rewrite <- Hperm; by left).
  assert (score_le c b = true) as Hcb.
  { rewrite <- Hperm in Hc. apply elem_of_cons in Hc as [->|Hc].
    - destruct (score_le_total b b); done.
    - apply StronglySorted_inv in Hsorted as [_ Hall].
      rewrite Forall_forall in Hall. by apply Hall. }
  rewrite <- Hperm in Hc. rewrite Hperm in Hc.
  apply candidate_elem_of in Hb as (_ & _ & Hbs).
  apply candidate_elem_of in Hc as (_ & _ & Hcs).
  apply Qle_bool_iff in Hcb. rewrite Hbs, Hcs, Hcw in Hcb. exact Hcb.
Qed.

Lemma fuzzy_suggestions_nil (self : Lexicon) (word : string) (n : Z)
    (dict_words : list string) :
  (1 ≤ n)%Z →
  fuzzy_suggestions self word n dict_words = []
  ↔ ∀ w, w ∈ dict_words →
      3 `min` (Str.len word / 2 + 1) < levenshtein word w.
Proof.
  intros Hn. split.
  - intros Hnil w Hw.
    destruct (decide (levenshtein word w ≤ 3 `min` (Str.len word / 2 + 1)))
      as [Hle|?]; [|lia].
    destruct (fuzzy_suggestions_best self word n dict_words w Hn Hw Hle)
      as (b & rest & Heq & _). congruence.
  - intros Hfar. unfold fuzzy_suggestions.
    replace (omap (candidate self word (3 `min` (Str.len word / 2 + 1)))
                  dict_words) with (@nil (string * Q * nat)).
    { simpl. by rewrite slice_to_nil. }
    symmetry. induction dict_words as [|w ws IH]; [done|].
    rewrite omap_cons_eq. unfold candidate at 1.
    rewrite decide_False by (specialize (Hfar w (list_elem_of_here _ _)); lia).
    apply IH. intros w' Hw'. apply Hfar. by right.
Qed.

Section suggestion_facts.

Variable set_order : gset string → list string.
Hypothesis set_order_enum : ∀ s, set_order s ≡ₚ elements s.

Lemma set_order_NoDup (s : gset string) : NoDup (set_order s).
Proof using set_order_enum. rewrite set_order_enum. apply NoDup_elements. Qed.

Lemma set_order_elem_of_iff (s : gset string) (w : string) :
  w ∈ set_order s ↔ w ∈ s.
Proof using set_order_enum. rewrite set_order_enum. apply elem_of_elements. Qed.

(** The three ways [find_suggestions] returns. *)
Lemma find_suggestions_cases (self : Lexicon) (w : string) (n : Z) :
  (Str.lower w ∈ dictionary self
   ∧ find_suggestions set_order w n self = (Ok [Str.lower w], self))
  ∨ (∃ fixed, (Str.lower w ∉ dictionary self)
       ∧ learned_fixes self !! Str.lower w = Some fixed
       ∧ find_suggestions set_order w n self = (Ok [fixed], self))
  ∨ ((Str.lower w ∉ dictionary self)
     ∧ learned_fixes self !! Str.lower w = None
     ∧ find_suggestions set_order w n self
       = (Ok (fuzzy_suggestions self (Str.lower w) n
                (set_order (dictionary self))), self)).
Proof using set_order_enum.
  destruct (decide (Str.lower w ∈ dictionary self)) as [Hin|Hout].
  { left. split; [done|]. by apply find_suggestions_known. }
  right. destruct (learned_fixes self !! Str.lower w) as [fixed|] eqn:Hfix.
  { left. exists fixed. split_and!; [done..|].
    by apply find_suggestions_learned. }
  right. split_and!; [done..|].
  apply find_suggestions_fuzzy; [done..|].
  intros d. apply set_order_elem_of_iff.
Qed.

(** X11: for a limit [n >= 1], [find_suggestions] returns at most [n]
    words. *)
Theorem suggestions_at_most_limit (self : Lexicon) (w : string) (n : Z) :
  (1 ≤ n)%Z →
  ∃ l, find_suggestions set_order w n self = (Ok l, self)
       ∧ length l ≤ Z.to_nat n.
Proof using set_order_enum.
  intros Hn.
  destruct (find_suggestions_cases self w n)
    as [[_ ->]|[(fixed & _ & _ & ->)|(_ & _ & ->)]];
    eexists; (split; [reflexivity|]); simpl; try lia.
  unfold fuzzy_suggestions. rewrite length_fmap.
  apply length_slice_to. lia.
Qed.

(** X12: every word [find_suggestions] returns is a word of the dictionary
    or the learned fix of the lowercased query. *)
Theorem suggestions_are_known (self : Lexicon) (w : string) (n : Z) :
  ∃ l, find_suggestions set_order w n self = (Ok l, self)
       ∧ ∀ c, c ∈ l →
           c ∈ dictionary self ∨ learned_fixes self !! Str.lower w = Some c.
Proof using set_order_enum.
  destruct (find_suggestions_cases self w n)
    as [[Hin ->]|[(fixed & _ & Hfix & ->)|(_ & _ & ->)]];
    eexists; (split; [reflexivity|]); intros c Hc.
  - apply list_elem_of_singleton in Hc as ->. by left.
  - apply list_elem_of_singleton in Hc as ->. by right.
  - apply fuzzy_suggestions_spec in Hc as [Hc _].
    left. by apply set_order_elem_of_iff.
Qed.

(** X13: [find_suggestions] never returns the same word twice. *)
Theorem suggestions_are_distinct (self : Lexicon) (w : string) (n : Z) :
  ∃ l, find_suggestions set_order w n self = (Ok l, self) ∧ NoDup l.
Proof using set_order_enum.
  destruct (find_suggestions_cases self w n)
    as [[_ ->]|[(fixed & _ & _ & ->)|(_ & _ & ->)]];
    eexists; (split; [reflexivity|]).
  - apply NoDup_singleton.
  - apply NoDup_singleton.
  - apply fuzzy_suggestions_NoDup, set_order_NoDup.
Qed.

(** X14: when [find_suggestions] reaches the fuzzy search (the lowercased
    word is neither in the dictionary nor a key of the learned fixes), the
    words come in order of score, best first: a word never scores more than
    a word before it. *)
Theorem suggestions_best_first (self : Lexicon) (w : string) (n : Z) :
  Str.lower w ∉ dictionary self →
  learned_fixes self !! Str.lower w = None →
  ∃ l, find_suggestions set_order w n self = (Ok l, self)
       ∧ ∀ i j wi wj, i ≤ j → l !! i = Some wi → l !! j = Some wj →
           (total_score self (Str.lower w) wj (levenshtein (Str.lower w) wj)
            <= total_score self (Str.lower w) wi
                 (levenshtein (Str.lower w) wi))%Q.
Proof using set_order_enum.
  intros Hout Hnone. eexists. split.
  - apply find_suggestions_fuzzy; [done..|].
    intros d. apply set_order_elem_of_iff.
  - intros i j wi wj. apply fuzzy_suggestions_sorted.
Qed.

(** X15: in the fuzzy search with a limit [n >= 1], a dictionary word within
    the admitted distance is never missed: a suggestion is returned, and
    the first one scores at least as much as that word. *)
Theorem best_suggestion_is_top (self : Lexicon) (w d : string) (n : Z) :
  (1 ≤ n)%Z →
  Str.lower w ∉ dictionary self →
  learned_fixes self !! Str.lower w = None →
  d ∈ dictionary self →
  levenshtein (Str.lower w) d ≤ 3 `min` (Str.len w / 2 + 1) →
  ∃ best rest,
    find_suggestions set_order w n self = (Ok (best :: rest), self)
    ∧ (total_score self (Str.lower w) d (levenshtein (Str.lower w) d)
       <= total_score self (Str.lower w) best
            (levenshtein (Str.lower w) best))%Q.
Proof using set_order_enum.
  intros Hn Hout Hnone Hd Hle.
  destruct (fuzzy_suggestions_best self (Str.lower w) n
              (set_order (dictionary self)) d Hn)
    as (best & rest & Heq & Hscore).
  { by apply set_order_elem_of_iff. }
  { by rewrite len_lower. }
  exists best, rest. split; [|exact Hscore].
  rewrite <- Heq. apply find_suggestions_fuzzy; [done..|].
  intros d'. apply set_order_elem_of_iff.
Qed.

(** X16: in the fuzzy search with a limit [n >= 1], the empty list is
    returned exactly when every dictionary word is farther than the
    admitted distance [min(3, len(w.lower()) // 2 + 1)], the length being
    that of the lowercased word, as on line 152 of the source. *)
Theorem no_suggestion_iff_all_far (self : Lexicon) (w : string) (n : Z) :
  (1 ≤ n)%Z →
  Str.lower w ∉ dictionary self →
  learned_fixes self !! Str.lower w = None →
  find_suggestions set_order w n self = (Ok [], self)
  ↔ ∀ d, d ∈ dictionary self →
      3 `min` (Str.len (Str.lower w) / 2 + 1) < levenshtein (Str.lower w) d.
Proof using set_order_enum.
  intros Hn Hout Hnone.
  rewrite find_suggestions_fuzzy; [|done..|intros d; apply set_order_elem_of_iff].
  pose proof (fuzzy_suggestions_nil self (Str.lower w) n
                (set_order (dictionary self)) Hn) as Hnil.
  split.
  - intros [= Heq] d Hd. apply Hnil; [done|]. by apply set_order_elem_of_iff.
  - intros Hfar. do 2 f_equal. apply Hnil.
    intros d Hd. by apply Hfar, set_order_elem_of_iff.
Qed.

End suggestion_facts.

(** ** Trimming and case *)

Lemma isspace_lower_char (c : ascii) :
  Str.isspace_char (Str.lower_char c) = Str.isspace_char c.
Proof. destruct c as [[] [] [] [] [] [] [] []]; reflexivity. Qed.

Lemma lstrip_lower (l : list ascii) :
  Str.lstrip_chars (Str.lower_char <$> l)
  = Str.lower_char <$> Str.lstrip_chars l.
Proof.
  induction l as [|c l IH]; [done|].
  rewrite fmap_cons. cbn [Str.lstrip_chars]. rewrite isspace_lower_char.
  destruct (Str.isspace_char c); [exact IH | by rewrite fmap_cons].
Qed.

Lemma strip_lower (s : string) :
  Str.strip (Str.lower s) = Str.lower (Str.strip s).
Proof.
  unfold Str.strip, Str.lower. rewrite !chars_of_chars. f_equal.
  by rewrite lstrip_lower, <- fmap_reverse, lstrip_lower, fmap_reverse.
Qed.

Lemma lstrip_idemp (l : list ascii) :
  Str.lstrip_chars (Str.lstrip_chars l) = Str.lstrip_chars l.
Proof.
  induction l as [|c l IH]; [done|]. cbn [Str.lstrip_chars].
  destruct (Str.isspace_char c) eqn:Hc; [exact IH|].
  cbn [Str.lstrip_chars]. by rewrite Hc.
Qed.

Lemma lstrip_head (l : list ascii) :
  Str.lstrip_chars l = []
  ∨ ∃ c t, Str.lstrip_chars l = c :: t ∧ Str.isspace_char c = false.
Proof.
  induction l as [|c l IH]; [by left|]. cbn [Str.lstrip_chars].
  destruct (Str.isspace_char c) eqn:Hc; [exact IH|]. right. by exists c, l.
Qed.

Lemma lstrip_snoc (l : list ascii) (x : ascii) :
  Str.isspace_char x = false →
  Str.lstrip_chars (l ++ [x]) = Str.lstrip_chars l ++ [x].
Proof.
  intros Hx. induction l as [|c l IH]; cbn [app Str.lstrip_chars].
  - by rewrite Hx.
  - by destruct (Str.isspace_char c).
Qed.

(** Trimming on the right of a word that starts with a visible character
    keeps that character. *)
Lemma rstrip_cons (c : ascii) (t : list ascii) :
  Str.isspace_char c = false →
  reverse (Str.lstrip_chars (reverse (c :: t)))
  = c :: reverse (Str.lstrip_chars (reverse t)).
Proof.
  intros Hc. by rewrite reverse_cons, lstrip_snoc, reverse_snoc.
Qed.

Lemma strip_chars_idemp (l : list ascii) :
  reverse (Str.lstrip_chars (reverse (Str.lstrip_chars
    (reverse (Str.lstrip_chars (reverse (Str.lstrip_chars l)))))))
  = reverse (Str.lstrip_chars (reverse (Str.lstrip_chars l))).
Proof.
  destruct (lstrip_head l) as [->|(c & t & -> & Hc)]; [done|].
  rewrite (rstrip_cons c t Hc). cbn [Str.lstrip_chars]. rewrite Hc.
  rewrite (rstrip_cons c _ Hc). f_equal.
  by rewrite reverse_involutive, lstrip_idemp.
Qed.

Lemma strip_idemp (s : string) : Str.strip (Str.strip s) = Str.strip s.
Proof.
  unfold Str.strip. rewrite chars_of_chars. f_equal. apply strip_chars_idemp.
Qed.

Lemma normalize_idemp (s : string) :
  Str.strip (Str.lower (Str.strip (Str.lower s))) = Str.strip (Str.lower s).
Proof. by rewrite <- strip_lower, lower_idemp, strip_idemp. Qed.

Lemma lstrip_spaces (l : list ascii) :
  Forall (λ c, Str.isspace_char c = true) l → Str.lstrip_chars l = [].
Proof.
  induction 1 as [|c l Hc _ IH]; [done|].
  cbn [Str.lstrip_chars]. by rewrite Hc.
Qed.

Lemma normalize_spaces (s : string) :
  Forall (λ c, Str.isspace_char c = true) (Str.chars s) →
  Str.strip (Str.lower s) = EmptyString.
Proof.
  intros Hs. unfold Str.strip, Str.lower. rewrite chars_of_chars.
  rewrite (lstrip_spaces (Str.lower_char <$> Str.chars s)); [done|].
  apply Forall_fmap. eapply Forall_impl; [exact Hs|].
  intros c Hc. simpl. by rewrite isspace_lower_char.
Qed.

(** ** What [add_word] and [learn_correction] change *)

(** X17: [add_word] only looks at the lowercased, trimmed word: adding a
    word and adding its normal form do the same, and a word made of
    whitespace only (the empty word included) changes nothing. *)
Theorem add_word_normalizes (self : Lexicon) (w : string) :
  add_word w self = add_word (Str.strip (Str.lower w)) self
  ∧ (Forall (λ c, Str.isspace_char c = true) (Str.chars w) →
     add_word w self = (Ok tt, self)).
Proof.
  split.
  - by rewrite !add_word_run, normalize_idemp.
  - intros Hs. rewrite add_word_run, (normalize_spaces w Hs).
    by rewrite decide_True.
Qed.

Lemma frequency_of_add_word (self : Lexicon) (w k : string) :
  frequency_of (snd (add_word w self)) k
  = if decide (Str.strip (Str.lower w) ≠ EmptyString
               ∧ Str.strip (Str.lower w) = k)
    then frequency_of self k + 1 else frequency_of self k.
Proof.
  rewrite add_word_run. cbn [snd].
  destruct (decide (Str.strip (Str.lower w) = EmptyString)) as [He|Hne].
  { rewrite decide_False; [done|]. by intros [? _]. }
  unfold frequency_of at 1. cbn [word_count].
  destruct (decide (Str.strip (Str.lower w) = k)) as [<-|Hk].
  - rewrite odict_get_set_eq, decide_True by done. done.
  - rewrite odict_get_set_ne by done. rewrite decide_False; [done|].
    by intros [_ ?].
Qed.

(** X18: [add_word] never raises, never removes a word from the
    dictionary, never lowers a count and never touches the learned
    fixes. *)
Theorem add_word_only_grows (self : Lexicon) (w : string) :
  fst (add_word w self) = Ok tt
  ∧ dictionary self ⊆ dictionary (snd (add_word w self))
  ∧ (∀ k, frequency_of self k ≤ frequency_of (snd (add_word w self)) k)
  ∧ learned_fixes (snd (add_word w self)) = learned_fixes self.
Proof.
  split_and!.
  - by rewrite add_word_run.
  - apply add_word_dictionary.
  - intros k. rewrite frequency_of_add_word. case_decide; lia.
  - apply add_word_learned_fixes.
Qed.

(** X19: [learn_correction] never raises; it records the lowercased
    correction under the lowercased wrong word, leaves the other learned
    fixes as they were, and never removes a word or lowers a count. *)
Theorem learn_correction_effect (self : Lexicon) (wrong correct : string) :
  let self' := snd (learn_correction wrong correct self) in
  fst (learn_correction wrong correct self) = Ok tt
  ∧ learned_fixes self' !! Str.lower wrong = Some (Str.lower correct)
  ∧ (∀ k, k ≠ Str.lower wrong → learned_fixes self' !! k = learned_fixes self !! k)
  ∧ dictionary self ⊆ dictionary self'
  ∧ (∀ k, frequency_of self k ≤ frequency_of self' k).
Proof.
  intros self'. subst self'. rewrite learn_correction_run.
  split_and!.
  - by rewrite add_word_run.
  - rewrite add_word_learned_fixes. cbn [learned_fixes].
    apply lookup_insert_eq.
  - intros k Hk. rewrite add_word_learned_fixes. cbn [learned_fixes].
    by apply lookup_insert_ne.
  - etrans; [|apply add_word_dictionary]. done.
  - intros k. rewrite frequency_of_add_word.
    case_decide; unfold frequency_of; cbn [word_count]; lia.
Qed.

(** X20: a learned correction is what [find_suggestions] then returns for
    the wrong word, whatever was learned for it before, provided the wrong
    word is not a dictionary word and is not the correction itself. *)
Theorem learn_then_suggest (set_order : gset string → list string)
    (self : Lexicon) (wrong correct : string) (n : Z) :
  Str.lower wrong ∉ dictionary self →
  Str.lower wrong ≠ Str.strip (Str.lower correct) →
  find_suggestions set_order wrong n
    (snd (learn_correction wrong correct self))
  = (Ok [Str.lower correct], snd (learn_correction wrong correct self)).
Proof.
  intros Hout Hne. apply find_suggestions_learned.
  - rewrite learn_correction_run, add_word_run. cbn [snd].
    rewrite lower_idemp. case_decide; cbn [dictionary]; [done|].
    apply not_elem_of_union. split; [|done].
    by apply not_elem_of_singleton.
  - rewrite learn_correction_run, add_word_learned_fixes. cbn [learned_fixes].
    apply lookup_insert_eq.
Qed.

(** ** Invariants of the reachable states *)

Lemma load_preserves (P : Lexicon → Prop) :
  (∀ w self, P self → P (snd (add_word w self))) →
  ∀ ws self, P self → P (snd (for_each ws (λ w _, add_word w) tt self)).
Proof.
  intros Hadd ws. induction ws as [|w ws IH]; intros self HP; [done|].
  cbn [for_each]. unfold bind. specialize (Hadd w self HP).
  rewrite add_word_run in Hadd |- *. cbn [snd] in Hadd. by apply IH.
Qed.

Lemma reachable_inv (P : Lexicon → Prop) :
  P empty_lexicon →
  (∀ w self, P self → P (snd (add_word w self))) →
  (∀ w c self, P self → P (snd (learn_correction w c self))) →
  ∀ self, reachable self → P self.
Proof.
  intros Hempty Hadd Hlearn self. induction 1; [|by apply Hadd|by apply Hlearn].
  unfold initial_lexicon, load_basic_words. by apply load_preserves.
Qed.

Lemma learn_correction_dictionary (w c : string) (self : Lexicon) :
  dictionary (snd (learn_correction w c self))
  = dictionary (snd (add_word c self)).
Proof.
  rewrite learn_correction_run, !add_word_run. cbn [snd].
  rewrite lower_idemp. by case_decide.
Qed.

Lemma learn_correction_frequency (w c : string) (self : Lexicon) (k : string) :
  frequency_of (snd (learn_correction w c self)) k
  = frequency_of (snd (add_word c self)) k.
Proof.
  rewrite learn_correction_run, !frequency_of_add_word, lower_idemp.
  by case_decide.
Qed.

Lemma elem_of_add_word (w k : string) (self : Lexicon) :
  k ∈ dictionary (snd (add_word w self))
  ↔ (Str.strip (Str.lower w) ≠ EmptyString ∧ k = Str.strip (Str.lower w))
    ∨ k ∈ dictionary self.
Proof.
  rewrite add_word_run. cbn [snd].
  destruct (decide (Str.strip (Str.lower w) = EmptyString)) as [He|Hne];
    cbn [dictionary].
  - split; [by right|]. intros [[Hne _]|Hk]; [done | exact Hk].
  - rewrite elem_of_union, elem_of_singleton. tauto.
Qed.

(** X21: in every reachable state, every word of the dictionary is in
    normal form: not empty, lowercased and without surrounding
    whitespace. *)
Theorem dictionary_words_are_normalized (self : Lexicon) (w : string) :
  reachable self → w ∈ dictionary self → normalized w.
Proof.
  intros Hreach. revert w.
  apply (reachable_inv (λ self, ∀ w, w ∈ dictionary self → normalized w));
    [| | |exact Hreach].
  - intros w Hw. by apply not_elem_of_empty in Hw.
  - intros w0 self0 IH w [[Hne ->]|Hw]%elem_of_add_word; [|by apply IH].
    split; [done | apply normalize_idemp].
  - intros w0 c self0 IH w. rewrite learn_correction_dictionary.
    intros [[Hne ->]|Hw]%elem_of_add_word; [|by apply IH].
    split; [done | apply normalize_idemp].
Qed.

Lemma dictionary_words_are_normalized_witness :
  reachable (snd (add_word "  Braille  " initial_lexicon))
  ∧ "braille" ∈ dictionary (snd (add_word "  Braille  " initial_lexicon))
  ∧ normalized "braille".
Proof.
  assert (reachable (snd (add_word "  Braille  " initial_lexicon))) as Hreach
    by apply reach_add_word, reach_init.
  assert ("braille" ∈ dictionary (snd (add_word "  Braille  " initial_lexicon)))
    as Hin by (apply (bool_decide_unpack _); vm_compute; exact I).
  split; [exact Hreach | split; [exact Hin|]].
  exact (dictionary_words_are_normalized _ "braille" Hreach Hin).
Defined.

(** X22: in every reachable state, a word is in the dictionary exactly when
    its count is at least 1. *)
Theorem known_iff_counted (self : Lexicon) (w : string) :
  reachable self → w ∈ dictionary self ↔ 1 ≤ frequency_of self w.
Proof.
  intros Hreach. revert w.
  apply (reachable_inv
           (λ self, ∀ w, w ∈ dictionary self ↔ 1 ≤ frequency_of self w));
    [| | |exact Hreach].
  - intros w. unfold frequency_of. cbn. split; [|lia].
    intros Hw. by apply not_elem_of_empty in Hw.
  - intros w0 self0 IH w. rewrite elem_of_add_word, frequency_of_add_word, IH.
    case_decide as Hd; [destruct Hd as [? <-]|]; split; try lia; auto.
    intros [[? ->]|?]; [destruct Hd; done | done].
  - intros w0 c self0 IH w.
    rewrite learn_correction_dictionary, learn_correction_frequency.
    rewrite elem_of_add_word, frequency_of_add_word, IH.
    case_decide as Hd; [destruct Hd as [? <-]|]; split; try lia; auto.
    intros [[? ->]|?]; [destruct Hd; done | done].
Qed.

Lemma known_iff_counted_witness :
  reachable (snd (learn_correction "teh" "The" initial_lexicon))
  ∧ ("the" ∈ dictionary (snd (learn_correction "teh" "The" initial_lexicon))
     ↔ 1 ≤ frequency_of (snd (learn_correction "teh" "The" initial_lexicon))
             "the").
Proof.
  assert (reachable (snd (learn_correction "teh" "The" initial_lexicon)))
    as Hreach by apply reach_learn_correction, reach_init.
  split; [exact Hreach|].
  exact (known_iff_counted _ "the" Hreach).
Defined.

Lemma learned_keys_lower (self : Lexicon) :
  reachable self →
  ∀ k v, learned_fixes self !! k = Some v → Str.lower k = k.
Proof.
  apply (reachable_inv
           (λ self, ∀ k v, learned_fixes self !! k = Some v → Str.lower k = k)).
  - intros k v Hk. unfold empty_lexicon in Hk. cbn [learned_fixes] in Hk.
    by rewrite lookup_empty in Hk.
  - intros w self0 IH k v. rewrite add_word_learned_fixes. apply IH.
  - intros w c self0 IH k v.
    rewrite learn_correction_run, add_word_learned_fixes. cbn [learned_fixes].
    destruct (decide (Str.lower w = k)) as [<-|Hne].
    + intros _. apply lower_idemp.
    + rewrite lookup_insert_ne by done. apply IH.
Qed.

(** X23: in every reachable state, every learned fix can be retrieved: for
    a key of the learned fixes that is not a dictionary word,
    [find_suggestions] returns exactly its fix. *)
Theorem learned_fix_is_retrievable (set_order : gset string → list string)
    (self : Lexicon) (k v : string) (n : Z) :
  reachable self →
  learned_fixes self !! k = Some v →
  k ∉ dictionary self →
  find_suggestions set_order k n self = (Ok [v], self).
Proof.
  intros Hreach Hk Hout.
  pose proof (learned_keys_lower self Hreach k v Hk) as Hlow.
  apply find_suggestions_learned; by rewrite Hlow.
Qed.

Lemma learned_fix_is_retrievable_witness :
  let self := snd (learn_correction "Helo" "Hello" initial_lexicon) in
  reachable self
  ∧ learned_fixes self !! "helo" = Some "hello"
  ∧ ("helo" ∉ dictionary self)
  ∧ find_suggestions elements "helo" 3 self = (Ok ["hello"], self).
Proof.
  intros self.
  assert (reachable self) as Hreach by apply reach_learn_correction, reach_init.
  assert (learned_fixes self !! "helo" = Some "hello") as Hk
    by (vm_compute; reflexivity).
  assert ("helo" ∉ dictionary self) as Hout
    by (apply (bool_decide_unpack _); vm_compute; exact I).
  split; [exact Hreach | split; [exact Hk | split; [exact Hout|]]].
  exact (learned_fix_is_retrievable elements self "helo" "hello" 3
           Hreach Hk Hout).
Defined.

(** ** [get_stats] *)

Lemma count_le_total (x y : string * nat) :
  (snd x <=? snd y) = true ∨ (snd y <=? snd x) = true.
Proof. rewrite !Nat.leb_le. lia. Qed.

Lemma count_le_trans (x y z : string * nat) :
  (snd x <=? snd y) = true → (snd y <=? snd z) = true →
  (snd x <=? snd z) = true.
Proof. rewrite !Nat.leb_le. lia. Qed.

(** X24: [get_stats] never raises and changes nothing; it reports the
    number of dictionary words and of learned fixes, and as most common
    words at most five entries of the word counts, in order of count,
    highest first, none of the entries left out having a higher count than
    one that is listed. *)
Theorem get_stats_top_five (self : Lexicon) :
  ∃ st, get_stats self = (Ok st, self)
    ∧ total_words st = size (dictionary self)
    ∧ learned_corrections st = size (learned_fixes self)
    ∧ length (most_common_words st) ≤ 5
    ∧ (∀ x, x ∈ most_common_words st → x ∈ word_count self)
    ∧ (∀ i j x y, i ≤ j →
         most_common_words st !! i = Some x →
         most_common_words st !! j = Some y → snd y ≤ snd x)
    ∧ (∀ x y, x ∈ most_common_words st → y ∈ word_count self →
         y ∉ most_common_words st → snd y ≤ snd x).
Proof.
  eexists. split; [reflexivity|]. cbn [total_words learned_corrections
                                       most_common_words].
  unfold ODict.items.
  set (sorted := sort_desc (λ y x, snd y <=? snd x) (word_count self)).
  pose proof (sort_desc_sorted _ count_le_total count_le_trans
                (word_count self)) as Hsorted. fold sorted in Hsorted.
  pose proof (sort_desc_perm (λ y x, snd y <=? snd x) (word_count self))
    as Hperm. fold sorted in Hperm.
  split_and!; [done | done | rewrite length_take; lia | | |].
  - intros x Hx. rewrite <- Hperm. by eapply subseteq_take.
  - intros i j x y Hij [Hi _]%lookup_take_Some [Hj _]%lookup_take_Some.
    destruct (decide (i = j)) as [->|Hne]; [by simplify_eq|].
    apply Nat.leb_le.
    exact (strongly_sorted_lookup _ _ i j x y Hsorted ltac:(lia) Hi Hj).
  - intros x y Hx Hy Hout.
    apply list_elem_of_lookup in Hx as [i [Hi Hlt]%lookup_take_Some].
    rewrite <- Hperm in Hy. apply list_elem_of_lookup in Hy as [j Hj].
    assert (5 ≤ j) as Hge.
    { destruct (decide (j < 5)) as [Hlt'|?]; [|lia]. destruct Hout.
      eapply list_elem_of_lookup_2. apply lookup_take_Some. eauto. }
    apply Nat.leb_le.
    exact (strongly_sorted_lookup _ _ i j x y Hsorted ltac:(lia) Hi Hj).
Qed.

(** ** [autocorrect] *)

Section autocorrect_facts.

Variable set_order : gset string → list string.
Hypothesis set_order_enum : ∀ s, set_order s ≡ₚ elements s.

Lemma find_suggestions_total (self : Lexicon) (w : string) (n : Z) :
  ∃ l, find_suggestions set_order w n self = (Ok l, self).
Proof using set_order_enum.
  destruct (find_suggestions_cases set_order set_order_enum self w n)
    as [[_ ->]|[(fixed & _ & _ & ->)|(_ & _ & ->)]]; eauto.
Qed.

Lemma autocorrect_step_ok (n : Z) (word : string) (results : list correction)
    (self : Lexicon) :
  ∃ r, autocorrect_step set_order n word results self
       = (Ok (results ++ [r]), self)
       ∧ original r = word
       ∧ result_ok set_order n self r.
Proof using set_order_enum.
  unfold autocorrect_step. fold (letters_of word).
  destruct (decide (letters_of word = EmptyString)) as [Hempty|Hne].
  - eexists. split; [reflexivity|]. split; [reflexivity|].
    unfold result_ok. cbn [original suggestions best_match].
    by rewrite decide_True.
  - destruct (find_suggestions_total self (letters_of word) n) as [l Hl].
    rewrite (bind_ok _ _ _ _ _ Hl).
    destruct l as [|best l]; (eexists; split; [reflexivity|]);
      (split; [reflexivity|]); unfold result_ok;
      cbn [original suggestions best_match]; by rewrite decide_False.
Qed.

Lemma autocorrect_loop_ok (n : Z) (words : list string)
    (results : list correction) (self : Lexicon) :
  ∃ rs, for_each words (autocorrect_step set_order n) results self
        = (Ok (results ++ rs), self)
        ∧ original <$> rs = words
        ∧ Forall (result_ok set_order n self) rs.
Proof using set_order_enum.
  revert results. induction words as [|word words IH]; intros results.
  - exists []. by rewrite app_nil_r.
  - destruct (autocorrect_step_ok n word results self) as (r & Hr & Ho & Hok).
    destruct (IH (results ++ [r])) as (rs & Hrs & Hos & Hoks).
    exists (r :: rs). cbn [for_each]. rewrite (bind_ok _ _ _ _ _ Hr), Hrs.
    rewrite <- app_assoc. split_and!; [done | | by constructor].
    by rewrite fmap_cons, Ho, Hos.
Qed.

(** X25: on an ASCII text [autocorrect] never raises and changes nothing.
    It returns one
    result per whitespace-separated token, in order and with the token as
    [original], of the decoded text when the text holds one of the letters
    d, w, q, k, o, p in either case, and of the text itself otherwise.  In
    each result the best match is the first suggestion, or the token when
    there is none; the suggestions are those of [find_suggestions] for the
    letters of the token, or the token alone when it has no letter. *)
Theorem autocorrect_results (self : Lexicon) (text : string) (n : Z) :
  is_ascii text →
  ∃ text' rs,
    (if has_chord_key text
     then convert_braille_input text self = (Ok text', self)
     else text' = text)
    ∧ autocorrect set_order text n self = (Ok rs, self)
    ∧ original <$> rs = Str.split text'
    ∧ Forall (result_ok set_order n self) rs.
Proof using set_order_enum.
  intros _. unfold autocorrect. fold (has_chord_key text).
  destruct (has_chord_key text).
  - exists (decoded (Str.chars (Str.upper text))).
    destruct (autocorrect_loop_ok n
                (Str.split (decoded (Str.chars (Str.upper text)))) [] self)
      as (rs & Hrs & Hos & Hoks).
    exists rs. rewrite (bind_ok _ _ _ _ _ (convert_braille_input_ok text self)).
    split_and!; [apply convert_braille_input_ok | exact Hrs | done..].
  - destruct (autocorrect_loop_ok n (Str.split text) [] self)
      as (rs & Hrs & Hos & Hoks).
    exists text, rs. rewrite bind_ret. done.
Qed.

End autocorrect_facts.

Lemma autocorrect_results_witness :
  (∀ s : gset string, elements s ≡ₚ elements s)
  ∧ is_ascii "the cat!"
  ∧ ∃ text' rs,
      (if has_chord_key "the cat!"
       then convert_braille_input "the cat!" initial_lexicon
            = (Ok text', initial_lexicon)
       else text' = "the cat!")
      ∧ autocorrect elements "the cat!" 3 initial_lexicon
        = (Ok rs, initial_lexicon)
      ∧ original <$> rs = Str.split text'
      ∧ Forall (result_ok elements 3 initial_lexicon) rs.
Proof.
  assert (∀ s : gset string, elements s ≡ₚ elements s) as Henum
    by (intros s; reflexivity).
  assert (is_ascii "the cat!") as Hascii
    by (apply (bool_decide_unpack _); vm_compute; exact I).
  split; [exact Henum | split; [exact Hascii|]].
  exact (autocorrect_results elements Henum initial_lexicon "the cat!" 3
           Hascii).
Defined.

Lemma space_is_no_chord_key (c : ascii) :
  Str.isspace_char c = true →
  bool_decide (Str.upper_char c ∈ Str.chars "DWQKOP") = false.
Proof.
  destruct c as [[] [] [] [] [] [] [] []]; intros Hc;
    first [discriminate Hc | vm_compute; reflexivity].
Qed.

Lemma split_spaces (l : list ascii) :
  Forall (λ c, Str.isspace_char c = true) l → Str.split_chars [] l = [].
Proof.
  induction 1 as [|c l Hc _ IH]; [done|].
  cbn [Str.split_chars]. by rewrite Hc.
Qed.

(** X26: for a text made of whitespace only, the empty text included,
    [autocorrect] returns no result. *)
Theorem autocorrect_blank (set_order : gset string → list string)
    (self : Lexicon) (text : string) (n : Z) :
  Forall (λ c, Str.isspace_char c = true) (Str.chars text) →
  autocorrect set_order text n self = (Ok [], self).
Proof.
  intros Hblank. unfold autocorrect.
  replace (existsb _ (Str.chars (Str.upper text))) with false.
  - rewrite bind_ret. unfold Str.split. by rewrite split_spaces.
  - symmetry. unfold Str.upper. rewrite chars_of_chars.
    induction Hblank as [|c l Hc _ IH]; [done|].
    rewrite fmap_cons. cbn [existsb].
    by rewrite (space_is_no_chord_key c Hc), IH.
Qed.

Lemma autocorrect_blank_witness :
  Forall (λ c, Str.isspace_char c = true) (Str.chars "   ")
  ∧ autocorrect elements "   " 3 initial_lexicon = (Ok [], initial_lexicon).
Proof.
  assert (Forall (λ c, Str.isspace_char c = true) (Str.chars "   ")) as Hblank
    by (repeat constructor).
  split; [exact Hblank|].
  exact (autocorrect_blank elements initial_lexicon "   " 3 Hblank).
Defined.

(** ** Instances of the further properties *)

Lemma suggestions_at_most_limit_witness :
  (∀ s : gset string, elements s ≡ₚ elements s)
  ∧ (1 ≤ 2)%Z
  ∧ ∃ l, find_suggestions elements "helo" 2 initial_lexicon
         = (Ok l, initial_lexicon)
         ∧ length l ≤ Z.to_nat 2.
Proof.
  assert (∀ s : gset string, elements s ≡ₚ elements s) as Henum
    by (intros s; reflexivity).
  assert (1 ≤ 2)%Z as Hn by lia.
  split; [exact Henum | split; [exact Hn|]].
  exact (suggestions_at_most_limit elements Henum initial_lexicon "helo" 2 Hn).
Defined.

Lemma suggestions_are_known_witness :
  (∀ s : gset string, elements s ≡ₚ elements s)
  ∧ ∃ l, find_suggestions elements "helo" 3 initial_lexicon
         = (Ok l, initial_lexicon)
         ∧ ∀ c, c ∈ l →
             c ∈ dictionary initial_lexicon
             ∨ learned_fixes initial_lexicon !! Str.lower "helo" = Some c.
Proof.
  assert (∀ s : gset string, elements s ≡ₚ elements s) as Henum
    by (intros s; reflexivity).
  split; [exact Henum|].
  exact (suggestions_are_known elements Henum initial_lexicon "helo" 3).
Defined.

Lemma suggestions_are_distinct_witness :
  (∀ s : gset string, elements s ≡ₚ elements s)
  ∧ ∃ l, find_suggestions elements "helo" 3 initial_lexicon
         = (Ok l, initial_lexicon)
         ∧ NoDup l.
Proof.
  assert (∀ s : gset string, elements s ≡ₚ elements s) as Henum
    by (intros s; reflexivity).
  split; [exact Henum|].
  exact (suggestions_are_distinct elements Henum initial_lexicon "helo" 3).
Defined.

Lemma suggestions_best_first_witness :
  (∀ s : gset string, elements s ≡ₚ elements s)
  ∧ (Str.lower "helo" ∉ dictionary initial_lexicon)
  ∧ learned_fixes initial_lexicon !! Str.lower "helo" = None
  ∧ ∃ l, find_suggestions elements "helo" 3 initial_lexicon
         = (Ok l, initial_lexicon)
         ∧ ∀ i j wi wj, i ≤ j → l !! i = Some wi → l !! j = Some wj →
             (total_score initial_lexicon (Str.lower "helo") wj
                (levenshtein (Str.lower "helo") wj)
              <= total_score initial_lexicon (Str.lower "helo") wi
                   (levenshtein (Str.lower "helo") wi))%Q.
Proof.
  assert (∀ s : gset string, elements s ≡ₚ elements s) as Henum
    by (intros s; reflexivity).
  assert (Str.lower "helo" ∉ dictionary initial_lexicon) as Hout
    by (apply (bool_decide_unpack _); vm_compute; exact I).
  assert (learned_fixes initial_lexicon !! Str.lower "helo" = None) as Hnone
    by (vm_compute; reflexivity).
  split; [exact Henum | split; [exact Hout | split; [exact Hnone|]]].
  exact (suggestions_best_first elements Henum initial_lexicon "helo" 3
           Hout Hnone).
Defined.

Lemma best_suggestion_is_top_witness :
  (∀ s : gset string, elements s ≡ₚ elements s)
  ∧ (1 ≤ 3)%Z
  ∧ (Str.lower "helo" ∉ dictionary initial_lexicon)
  ∧ learned_fixes initial_lexicon !! Str.lower "helo" = None
  ∧ "hello" ∈ dictionary initial_lexicon
  ∧ levenshtein (Str.lower "helo") "hello" ≤ 3 `min` (Str.len "helo" / 2 + 1)
  ∧ ∃ best rest,
      find_suggestions elements "helo" 3 initial_lexicon
      = (Ok (best :: rest), initial_lexicon)
      ∧ (total_score initial_lexicon (Str.lower "helo") "hello"
           (levenshtein (Str.lower "helo") "hello")
         <= total_score initial_lexicon (Str.lower "helo") best
              (levenshtein (Str.lower "helo") best))%Q.
Proof.
  assert (∀ s : gset string, elements s ≡ₚ elements s) as Henum
    by (intros s; reflexivity).
  assert (1 ≤ 3)%Z as Hn by lia.
  assert (Str.lower "helo" ∉ dictionary initial_lexicon) as Hout
    by (apply (bool_decide_unpack _); vm_compute; exact I).
  assert (learned_fixes initial_lexicon !! Str.lower "helo" = None) as Hnone
    by (vm_compute; reflexivity).
  assert ("hello" ∈ dictionary initial_lexicon) as Hd
    by (apply (bool_decide_unpack _); vm_compute; exact I).
  assert (levenshtein (Str.lower "helo") "hello"
          ≤ 3 `min` (Str.len "helo" / 2 + 1)) as Hle
    by (vm_compute; lia).
  split; [exact Henum | split; [exact Hn | split; [exact Hout
    | split; [exact Hnone | split; [exact Hd | split; [exact Hle|]]]]]].
  exact (best_suggestion_is_top elements Henum initial_lexicon "helo" "hello" 3
           Hn Hout Hnone Hd Hle).
Defined.

Lemma no_suggestion_iff_all_far_witness :
  (∀ s : gset string, elements s ≡ₚ elements s)
  ∧ (1 ≤ 3)%Z
  ∧ (Str.lower "b" ∉ dictionary initial_lexicon)
  ∧ learned_fixes initial_lexicon !! Str.lower "b" = None
  ∧ (find_suggestions elements "b" 3 initial_lexicon
     = (Ok [], initial_lexicon)
     ↔ ∀ d, d ∈ dictionary initial_lexicon →
         3 `min` (Str.len (Str.lower "b") / 2 + 1)
         < levenshtein (Str.lower "b") d).
Proof.
  assert (∀ s : gset string, elements s ≡ₚ elements s) as Henum
    by (intros s; reflexivity).
  assert (1 ≤ 3)%Z as Hn by lia.
  assert (Str.lower "b" ∉ dictionary initial_lexicon) as Hout
    by (apply (bool_decide_unpack _); vm_compute; exact I).
  assert (learned_fixes initial_lexicon !! Str.lower "b" = None) as Hnone
    by (vm_compute; reflexivity).
  split; [exact Henum | split; [exact Hn | split; [exact Hout
    | split; [exact Hnone|]]]].
  exact (no_suggestion_iff_all_far elements Henum initial_lexicon "b" 3
           Hn Hout Hnone).
Defined.

Lemma learn_then_suggest_witness :
  (Str.lower "Wrold" ∉ dictionary initial_lexicon)
  ∧ Str.lower "Wrold" ≠ Str.strip (Str.lower "World")
  ∧ find_suggestions elements "Wrold" 3
      (snd (learn_correction "Wrold" "World" initial_lexicon))
    = (Ok [Str.lower "World"],
       snd (learn_correction "Wrold" "World" initial_lexicon)).
Proof.
  assert (Str.lower "Wrold" ∉ dictionary initial_lexicon) as Hout
    by (apply (bool_decide_unpack _); vm_compute; exact I).
  assert (Str.lower "Wrold" ≠ Str.strip (Str.lower "World")) as Hne
    by (vm_compute; discriminate).
  split; [exact Hout | split; [exact Hne|]].
  exact (learn_then_suggest elements initial_lexicon "Wrold" "World" 3
           Hout Hne).
Defined.
